(** * StreamJson: a shallow embedding of [streamjson/main.py]

    The development follows the Python module top to bottom: the text
    helpers, the escape decoder [StreamJsonStringParser], the engine
    [StreamJsonParser], and then the properties of both.

    Python objects are mutated in place and exceptions leave the
    mutations done so far visible.  Methods are therefore modelled in a
    state-and-exception monad whose state survives a [Raise]. *)

From Stdlib Require Import Ascii String DecimalString.
From Stdlib Require Import List NArith ZArith Bool Lia.
Import ListNotations.

(** ** Python text

    A Python [str] is a sequence of code points; a one-character string
    is a one-element list. *)

Definition char := N.
Definition pystr := list char.

Definition ch (a : ascii) : char := N_of_ascii a.
Arguments ch a%_char.

Definition DQUOTE : char := 34%N.
Definition BACKSLASH : char := 92%N.

(** [lit] turns a literal of this file into Python text.  The double
    quote cannot be written inside a literal here, so an apostrophe in
    the literal stands for the double quote (code point 34); every other
    character stands for itself.  [lit "{'a':1}"] is the text
    [{"a":1}]. *)
Definition lit (s : string) : pystr :=
  map (fun a => if Ascii.eqb a "'"%char then DQUOTE else N_of_ascii a)
      (list_ascii_of_string s).

(** [c in s] for a one-character [c]. *)
Definition str_in (c : char) (s : pystr) : bool := existsb (N.eqb c) s.

Fixpoint pystr_eqb (a b : pystr) : bool :=
  match a, b with
  | [], [] => true
  | x :: a', y :: b' => N.eqb x y && pystr_eqb a' b'
  | _, _ => false
  end.

(** [s.rstrip(chars)] *)
Fixpoint lstrip (chars : pystr) (s : pystr) : pystr :=
  match s with
  | [] => []
  | c :: t => if str_in c chars then lstrip chars t else s
  end.

Definition rstrip (chars : pystr) (s : pystr) : pystr :=
  rev (lstrip chars (rev s)).

(** [l.pop()] on a list seen with its last element as the top: the
    remaining list and the removed element, [None] on the empty list. *)
Fixpoint list_pop {A : Type} (l : list A) : option (list A * A) :=
  match l with
  | [] => None
  | x :: t =>
      match list_pop t with
      | None => Some ([], x)
      | Some (t', y) => Some (x :: t', y)
      end
  end.

(** ** Python values

    The values [json.loads] yields for the texts the parser hands to it,
    which are also what the nesting stack holds.  A float is kept as the
    numeral it was read from ([float(literal)]); no floating-point
    arithmetic is modelled. *)

Inductive pyvalue : Type :=
| PyStr (s : pystr)
| PyInt (z : Z)
| PyFloat (literal : pystr)
| PyBool (b : bool)
| PyNone.

(** [v == s] for a string literal [s]: only a [str] equals a [str]. *)
Definition py_eq_str (v : pyvalue) (s : pystr) : bool :=
  match v with
  | PyStr t => pystr_eqb t s
  | _ => false
  end.

Definition isinstance_str (v : pyvalue) : bool :=
  match v with PyStr _ => true | _ => false end.

(** [bool] is a subclass of [int] in Python. *)
Definition isinstance_int (v : pyvalue) : bool :=
  match v with PyInt _ | PyBool _ => true | _ => false end.

(** ** Exceptions *)

(** The six [raise RuntimeError(...)] sites of the engine; the message
    text is represented by its site and the values formatted into it. *)
Inductive runtime_error : Type :=
| StackIsEmpty
| BracketMismatch (pair : pyvalue) (expected : pystr)
| UnrecognizedCharacter (c : char)
| InvalidArrayValueStart (c : char)
| CannotRecognize (c : char)
| InvalidParserState.

Inductive exn : Type :=
| RuntimeError (e : runtime_error)
| AssertionError
| IndexError
| KeyError
| AttributeError
| JSONDecodeError
| ValueError
| UnicodeDecodeError
| StopIteration
| RecursionError
| NotModelled.

Inductive outcome (A : Type) : Type :=
| Return (a : A)
| Raise (e : exn).
Arguments Return {A} a.
Arguments Raise {A} e.

(** ** The method monad *)

Section Monad.
Context {S : Type}.

Definition M (A : Type) : Type := S -> S * outcome A.

Definition ret {A} (a : A) : M A := fun s => (s, Return a).

Definition raise {A} (e : exn) : M A := fun s => (s, Raise e).

Definition bind {A B} (m : M A) (k : A -> M B) : M B :=
  fun s =>
    match m s with
    | (s', Return a) => k a s'
    | (s', Raise e) => (s', Raise e)
    end.

Definition get : M S := fun s => (s, Return s).

Definition modify (f : S -> S) : M unit := fun s => (f s, Return tt).

(** [assert b] *)
Definition assert (b : bool) : M unit :=
  if b then ret tt else raise AssertionError.

(** A library call: it touches no parser state. *)
Definition call {A} (r : outcome A) : M A := fun s => (s, r).
End Monad.

Arguments M : clear implicits.

Declare Scope py_scope.
Delimit Scope py_scope with py.
Notation "x <- m ;; k" := (bind m (fun x => k))
  (at level 61, m at next level, right associativity) : py_scope.
Notation "m ;; k" := (bind m (fun _ => k))
  (at level 61, right associativity) : py_scope.
Local Open Scope py_scope.
Local Open Scope N_scope.

(** ** Library functions the module calls *)

Definition is_digit (c : char) : bool := (48 <=? c) && (c <=? 57).

(** [[a-fA-F0-9]] *)
Definition is_hex (c : char) : bool :=
  is_digit c || ((97 <=? c) && (c <=? 102)) || ((65 <=? c) && (c <=? 70)).

Definition hex_val (c : char) : N :=
  if is_digit c then c - 48
  else if (97 <=? c) && (c <=? 102) then c - 87
  else c - 55.

Definition hex_value (l : pystr) : N :=
  fold_left (fun acc c => acc * 16 + hex_val c) l 0.

Definition digits_value (l : pystr) : N :=
  fold_left (fun acc c => acc * 10 + (c - 48)) l 0.

(** *** [codecs.decode(span, "unicode_escape")]

    Modelled on the spans [ESCAPED] can match: a backslash followed by
    one of [n], [t], [r], a backslash or a double quote, or by [x], [u],
    [U] and 2, 4, 8 hex digits.  A code point above 0x10FFFF is rejected
    by the codec.  Any other span is outside the model ([NotModelled]);
    [ESCAPED_match_modelled] below shows that the decoder never passes
    one. *)
Definition codecs_decode_unicode_escape (span : pystr) : outcome pystr :=
  match span with
  | b :: c :: digits =>
      if negb (b =? BACKSLASH) then Raise NotModelled
      else match digits with
      | [] =>
          if c =? ch "n" then Return [10]
          else if c =? ch "t" then Return [9]
          else if c =? ch "r" then Return [13]
          else if c =? BACKSLASH then Return [BACKSLASH]
          else if c =? DQUOTE then Return [DQUOTE]
          else Raise NotModelled
      | _ =>
          if negb (forallb is_hex digits) then Raise NotModelled
          else if (c =? ch "x") && (length digits =? 2)%nat then
            Return [hex_value digits]
          else if (c =? ch "u") && (length digits =? 4)%nat then
            Return [hex_value digits]
          else if (c =? ch "U") && (length digits =? 8)%nat then
            if hex_value digits <=? 1114111 then Return [hex_value digits]
            else Raise UnicodeDecodeError
          else Raise NotModelled
      end
  | _ => Raise NotModelled
  end.

(** *** [json.loads]

    The scalar fragment of [json.loads] (the C scanner, strict mode): a
    string, a number, [true], [false], [null], [NaN] and the infinities,
    with blanks around.  A text whose first non-blank character opens a
    container is outside the model ([NotModelled]);
    [reachable_json_modelled] below shows the engine never builds such
    a payload. *)

Definition is_json_ws (c : char) : bool :=
  (c =? 32) || (c =? 9) || (c =? 10) || (c =? 13).

Definition skip_ws (s : pystr) : pystr :=
  (fix go (s : pystr) : pystr :=
     match s with
     | c :: t => if is_json_ws c then go t else s
     | [] => []
     end) s.

Definition is_high_surrogate (u : N) : bool := (55296 <=? u) && (u <=? 56319).
Definition is_low_surrogate (u : N) : bool := (56320 <=? u) && (u <=? 57343).
Definition join_surrogates (hi lo : N) : N :=
  65536 + (((hi - 55296) * 1024) + (lo - 56320)).

(** The [BACKSLASH] table of [json.decoder]. *)
Definition json_backslash (e : char) : option char :=
  if e =? DQUOTE then Some DQUOTE
  else if e =? BACKSLASH then Some BACKSLASH
  else if e =? ch "/" then Some (ch "/")
  else if e =? ch "b" then Some 8
  else if e =? ch "f" then Some 12
  else if e =? ch "n" then Some 10
  else if e =? ch "r" then Some 13
  else if e =? ch "t" then Some 9
  else None.

Definition cons_decoded (c : char) (r : option (pystr * pystr))
  : option (pystr * pystr) :=
  match r with
  | Some (v, rest) => Some (c :: v, rest)
  | None => None
  end.

(** [scanstring] from just after the opening quote: the decoded string
    and the text after the closing quote, [None] for every decode
    error. *)
Fixpoint scanstring (s : pystr) : option (pystr * pystr) :=
  match s with
  | [] => None
  | c :: t =>
      if c =? DQUOTE then Some ([], t)
      else if c =? BACKSLASH then
        match t with
        | [] => None
        | e :: t1 =>
            if e =? ch "u" then
              match t1 with
              | h1 :: h2 :: h3 :: h4 :: t2 =>
                  if forallb is_hex [h1; h2; h3; h4] then
                    let uni := hex_value [h1; h2; h3; h4] in
                    if is_high_surrogate uni then
                      match t2 with
                      | b :: u :: g1 :: g2 :: g3 :: g4 :: t3 =>
                          if (b =? BACKSLASH) && (u =? ch "u") then
                            if forallb is_hex [g1; g2; g3; g4] then
                              let uni2 := hex_value [g1; g2; g3; g4] in
                              if is_low_surrogate uni2
                              then cons_decoded (join_surrogates uni uni2)
                                                (scanstring t3)
                              else cons_decoded uni (scanstring t2)
                            else None
                          else cons_decoded uni (scanstring t2)
                      | _ => cons_decoded uni (scanstring t2)
                      end
                    else cons_decoded uni (scanstring t2)
                  else None
              | _ => None
              end
            else
              match json_backslash e with
              | Some d => cons_decoded d (scanstring t1)
              | None => None
              end
        end
      else if c <? 32 then None
      else cons_decoded c (scanstring t)
  end.

Fixpoint take_digits (s : pystr) : pystr * pystr :=
  match s with
  | c :: t =>
      if is_digit c then let (ds, r) := take_digits t in (c :: ds, r)
      else ([], s)
  | [] => ([], [])
  end.

Fixpoint starts_with (prefix s : pystr) : bool :=
  match prefix, s with
  | [], _ => true
  | p :: prefix', c :: s' => (p =? c) && starts_with prefix' s'
  | _ :: _, [] => false
  end.

(** [sys.get_int_max_str_digits()], at its default: an integer numeral
    with more digits is refused with [ValueError]. *)
Definition int_max_str_digits : nat := 4300.

(** [NUMBER_RE]: an optional minus sign and either a single zero or a
    non-zero digit with further digits; then optionally a dot and one or
    more digits; then optionally [e] or [E], an optional sign and one or
    more digits.  The number is an [int] when it has neither fraction
    nor exponent. *)
Definition scan_number (s : pystr) : option (outcome pyvalue * pystr) :=
  let (sign, s1) :=
    match s with
    | c :: t => if c =? ch "-" then ([c], t) else ([], s)
    | [] => ([], s)
    end in
  match s1 with
  | d :: t1 =>
      if is_digit d then
        let (ipart, r1) :=
          if d =? ch "0" then ([d], t1)
          else let (ds, r) := take_digits t1 in (d :: ds, r) in
        let (frac, r2) :=
          match r1 with
          | dot :: r =>
              if dot =? ch "." then
                match take_digits r with
                | ([], _) => ([], r1)
                | (fs, r') => (dot :: fs, r')
                end
              else ([], r1)
          | [] => ([], r1)
          end in
        let (ex, r3) :=
          match r2 with
          | e :: r =>
              if (e =? ch "e") || (e =? ch "E") then
                let (sg, r') :=
                  match r with
                  | g :: r0 =>
                      if (g =? ch "-") || (g =? ch "+") then ([g], r0)
                      else ([], r)
                  | [] => ([], r)
                  end in
                match take_digits r' with
                | ([], _) => ([], r2)
                | (es, r'') => (e :: sg ++ es, r'')
                end
              else ([], r2)
          | [] => ([], r2)
          end in
        match frac, ex with
        | [], [] =>
            if (int_max_str_digits <? length ipart)%nat
            then Some (Raise ValueError, r3)
            else
              let n := Z.of_N (digits_value ipart) in
              Some (Return (PyInt (match sign with
                                   | [] => n
                                   | _ => Z.opp n
                                   end)), r3)
        | _, _ => Some (Return (PyFloat (sign ++ ipart ++ frac ++ ex)), r3)
        end
      else None
  | [] => None
  end.

(** After the value only blanks may follow ("Extra data" otherwise). *)
Definition json_finish (v : pyvalue) (rest : pystr) : outcome pyvalue :=
  match skip_ws rest with
  | [] => Return v
  | _ :: _ => Raise JSONDecodeError
  end.

Definition json_loads (text : pystr) : outcome pyvalue :=
  let s := skip_ws text in
  match s with
  | [] => Raise JSONDecodeError
  | c :: t =>
      if c =? DQUOTE then
        match scanstring t with
        | Some (v, rest) => json_finish (PyStr v) rest
        | None => Raise JSONDecodeError
        end
      else if (c =? ch "{") || (c =? ch "[") then Raise NotModelled
      else if starts_with (lit "null") s then
        json_finish PyNone (skipn 4 s)
      else if starts_with (lit "true") s then
        json_finish (PyBool true) (skipn 4 s)
      else if starts_with (lit "false") s then
        json_finish (PyBool false) (skipn 5 s)
      else if starts_with (lit "NaN") s then
        json_finish (PyFloat (lit "NaN")) (skipn 3 s)
      else if starts_with (lit "Infinity") s then
        json_finish (PyFloat (lit "Infinity")) (skipn 8 s)
      else if starts_with (lit "-Infinity") s then
        json_finish (PyFloat (lit "-Infinity")) (skipn 9 s)
      else
        match scan_number s with
        | Some (Return v, rest) => json_finish v rest
        | Some (Raise e, _) => Raise e
        | None => Raise JSONDecodeError
        end
  end.

(** [json.dumps(key)] for a [str] key, with the default
    [ensure_ascii=True]. *)
Definition hex_digit (n : N) : char := if n <? 10 then 48 + n else 87 + n.

Definition hex4 (n : N) : pystr :=
  [hex_digit (n / 4096 mod 16); hex_digit (n / 256 mod 16);
   hex_digit (n / 16 mod 16); hex_digit (n mod 16)].

Definition json_escape_char (c : char) : pystr :=
  if c =? DQUOTE then [BACKSLASH; DQUOTE]
  else if c =? BACKSLASH then [BACKSLASH; BACKSLASH]
  else if c =? 10 then [BACKSLASH; ch "n"]
  else if c =? 13 then [BACKSLASH; ch "r"]
  else if c =? 9 then [BACKSLASH; ch "t"]
  else if c =? 12 then [BACKSLASH; ch "f"]
  else if c =? 8 then [BACKSLASH; ch "b"]
  else if (32 <=? c) && (c <=? 126) then [c]
  else if c <? 65536 then BACKSLASH :: ch "u" :: hex4 c
  else
    let v := c - 65536 in
    (BACKSLASH :: ch "u" :: hex4 (55296 + (v / 1024) mod 1024))
      ++ (BACKSLASH :: ch "u" :: hex4 (56320 + v mod 1024)).

Definition json_dumps (s : pystr) : pystr :=
  DQUOTE :: flat_map json_escape_char s ++ [DQUOTE].

(** [str(key)] for an [int] (or [bool]) key. *)
Definition str_of_int (z : Z) : pystr :=
  map N_of_ascii (list_ascii_of_string (NilZero.string_of_int (Z.to_int z))).

(** [".".join(parts)] *)
Fixpoint join_dot (parts : list pystr) : pystr :=
  match parts with
  | [] => []
  | [p] => p
  | p :: rest => p ++ ch "." :: join_dot rest
  end.

(** ** Module constants and helpers *)

(** [PAIRS[c]]; [None] is a missing key. *)
Definition PAIRS (c : char) : option pystr :=
  if c =? ch "}" then Some [ch "{"]
  else if c =? ch "]" then Some [ch "["]
  else None.

(** [n] leading hex digits of [s], if [s] has them. *)
Definition hex_run (n : nat) (s : pystr) : option pystr :=
  let h := firstn n s in
  if (length h =? n)%nat && forallb is_hex h then Some h else None.

(** [ESCAPED.match(s)]: [group(0)] of the match at the start of [s].
    The pattern is a backslash followed by one character of the class
    holding [n], [t], [r], the backslash and the double quote, or by [x]
    and 2 hex digits, [u] and 4, or [U] and 8. *)
Definition ESCAPED_match (s : pystr) : option pystr :=
  match s with
  | b :: c :: t =>
      if negb (b =? BACKSLASH) then None
      else if str_in c [ch "n"; ch "t"; ch "r"; BACKSLASH; DQUOTE]
      then Some [b; c]
      else if c =? ch "x" then option_map (fun h => b :: c :: h) (hex_run 2 t)
      else if c =? ch "u" then option_map (fun h => b :: c :: h) (hex_run 4 t)
      else if c =? ch "U" then option_map (fun h => b :: c :: h) (hex_run 8 t)
      else None
  | _ => None
  end.

Inductive ParserState : Type :=
| OUTSIDE
| KEY
| ATOMIC_VALUE
| STRING_VALUE
| INVALID.

Inductive event : Type :=
| ValuePiece (index_key : pystr) (c : pystr)
| Value (index_key : pystr) (value : pyvalue).

Definition is_atomic_value_char (c : char) : bool :=
  str_in c (lit "0123456789truefalsenull").

Definition is_whitespace (c : char) : bool :=
  str_in c [32; 10; 9; 13].

(** What [get_escaped_char] returns: a [str] or a [bool]. *)
Inductive resolved : Type :=
| RStr (c : pystr)
| RBool (b : bool).

(** ** The escape decoder *)

Module StreamJsonStringParser.

Record t : Type := mk { remains : pystr }.

Definition __init__ : t := {| remains := [] |}.

Definition feed_char (c : char) : M t unit :=
  modify (fun self => {| remains := remains self ++ [c] |}).

Definition get_escaped_char : M t resolved :=
  self <- get ;;
  match remains self with
  | [] => ret (RBool false)
  | c :: rest =>
      if c =? DQUOTE then ret (RBool true)
      else if negb (c =? BACKSLASH) then
        modify (fun _ => {| remains := rest |}) ;;
        ret (RStr [c])
      else
        match ESCAPED_match (remains self) with
        | Some group0 =>
            let length := length group0 in
            d <- call (codecs_decode_unicode_escape
                         (firstn length (remains self))) ;;
            modify (fun _ => {| remains := skipn length (remains self) |}) ;;
            ret (RStr d)
        | None =>
            match rest with
            | c1 :: rest' =>
                if negb (str_in c1 [ch "x"; ch "u"; ch "U"; BACKSLASH; DQUOTE])
                then
                  modify (fun _ => {| remains := rest' |}) ;;
                  ret (RStr [c1])
                else ret (RBool false)
            | [] => ret (RBool false)
            end
        end
  end.

End StreamJsonStringParser.

(** ** The engine *)

Module StreamJsonParser.

Record t : Type := mk {
  state : ParserState;
  stack : list pyvalue;
  toyield : list event;
  payload : pystr;
  payload_string_parser : option StreamJsonStringParser.t;
  started : bool
}.

Definition __init__ : t :=
  {| state := OUTSIDE; stack := []; toyield := []; payload := [];
     payload_string_parser := None; started := false |}.

Definition with_state (v : ParserState) (self : t) : t :=
  mk v (stack self) (toyield self) (payload self)
     (payload_string_parser self) (started self).
Definition with_stack (v : list pyvalue) (self : t) : t :=
  mk (state self) v (toyield self) (payload self)
     (payload_string_parser self) (started self).
Definition with_toyield (v : list event) (self : t) : t :=
  mk (state self) (stack self) v (payload self)
     (payload_string_parser self) (started self).
Definition with_payload (v : pystr) (self : t) : t :=
  mk (state self) (stack self) (toyield self) v
     (payload_string_parser self) (started self).
Definition with_payload_string_parser
           (v : option StreamJsonStringParser.t) (self : t) : t :=
  mk (state self) (stack self) (toyield self) (payload self)
     v (started self).
Definition with_started (v : bool) (self : t) : t :=
  mk (state self) (stack self) (toyield self) (payload self)
     (payload_string_parser self) v.

Definition set_state (v : ParserState) : M t unit := modify (with_state v).
Definition set_payload (v : pystr) : M t unit := modify (with_payload v).

(** [self.payload += c] *)
Definition payload_add (c : char) : M t unit :=
  modify (fun self => with_payload (payload self ++ [c]) self).

(** [self.stack.append(v)] *)
Definition stack_append (v : pyvalue) : M t unit :=
  modify (fun self => with_stack (stack self ++ [v]) self).

(** [self.stack.pop()] *)
Definition stack_pop : M t pyvalue :=
  self <- get ;;
  match list_pop (stack self) with
  | None => raise IndexError
  | Some (rest, v) => modify (with_stack rest) ;; ret v
  end.

(** [self.toyield.append(e)] *)
Definition toyield_append (e : event) : M t unit :=
  modify (fun self => with_toyield (toyield self ++ [e]) self).

(** [self.stack[-1] if self.stack else None] *)
Definition stack_top (l : list pyvalue) : pyvalue :=
  match list_pop l with
  | Some (_, v) => v
  | None => PyNone
  end.

(** [self.stack[-2]], read only where the length is at least 2. *)
Definition stack_m2 (l : list pyvalue) : pyvalue :=
  nth (length l - 2) l PyNone.

Definition is_current_data_finished (self : t) : bool :=
  started self && match stack self with [] => true | _ => false end.

(** [re.match("^[0-9a-zA-Z-_]", key)]: the class holds the digits, the
    letters, the hyphen and the underscore. *)
Definition key_is_bare (key : pystr) : bool :=
  match key with
  | c :: _ =>
      is_digit c || ((97 <=? c) && (c <=? 122)) || ((65 <=? c) && (c <=? 90))
      || (c =? ch "-") || (c =? ch "_")
  | [] => false
  end.

(** The [while current:] loop of [calculate_current_index_key]: the
    list [result], read from the bottom of the stack. *)
Fixpoint index_key_segments (current : list pyvalue)
  : outcome (list pystr) :=
  match current with
  | [] => Return []
  | marker :: rest =>
      if py_eq_str marker [ch "["] then
        match rest with
        | [] => Raise IndexError
        | key :: rest' =>
            match key with
            | PyInt z =>
                match index_key_segments rest' with
                | Return r => Return (str_of_int z :: r)
                | Raise e => Raise e
                end
            | PyBool b =>
                match index_key_segments rest' with
                | Return r =>
                    Return (lit (if b then "True" else "False") :: r)
                | Raise e => Raise e
                end
            | _ => Raise AssertionError
            end
        end
      else if py_eq_str marker [ch "{"] then
        match rest with
        | [] => Raise IndexError
        | key :: rest' =>
            match key with
            | PyStr k =>
                match index_key_segments rest' with
                | Return r =>
                    Return ((if key_is_bare k then k else json_dumps k) :: r)
                | Raise e => Raise e
                end
            | _ => Raise AssertionError
            end
        end
      else index_key_segments rest
  end.

Definition calculate_current_index_key : M t pystr :=
  self <- get ;;
  result <- call (index_key_segments (stack self)) ;;
  ret (join_dot result).

Definition _handle_brackets (c : char) : M t unit :=
  if str_in c [ch "{"; ch "["] then stack_append (PyStr [c])
  else if str_in c [ch "}"; ch "]"] then
    self <- get ;;
    match stack self with
    | [] =>
        set_state INVALID ;;
        raise (RuntimeError StackIsEmpty)
    | _ :: _ =>
        pair <- stack_pop ;;
        match PAIRS c with
        | None => raise KeyError
        | Some expected =>
            if negb (py_eq_str pair expected) then
              set_state INVALID ;;
              raise (RuntimeError (BracketMismatch pair expected))
            else
              self <- get ;;
              match stack self with
              | [] => ret tt
              | _ :: _ =>
                  used_key_index <- stack_pop ;;
                  assert (negb (py_eq_str used_key_index [ch "{"]
                                || py_eq_str used_key_index [ch "["]))
              end
        end
    end
  else ret tt.

Definition _handle_inside_object_value (c : char) : M t unit :=
  if c =? DQUOTE then
    set_payload [DQUOTE] ;;
    set_state STRING_VALUE
  else if is_atomic_value_char c then
    payload_add c ;;
    set_state ATOMIC_VALUE
  else
    set_state INVALID ;;
    raise (RuntimeError (UnrecognizedCharacter c)).

Definition feed_char_outside (c : char) : M t unit :=
  self <- get ;;
  let current_top := stack_top (stack self) in
  if str_in c [ch "{"; ch "}"; ch "["; ch "]"] then _handle_brackets c
  else if is_whitespace c then ret tt
  else
    modify (with_started true) ;;
    if (c =? ch ",")
       && (py_eq_str current_top [ch "{"] || py_eq_str current_top [ch "["])
    then ret tt
    else if (c =? ch ":")
            && isinstance_str current_top
            && (2 <=? length (stack self))%nat
            && py_eq_str (stack_m2 (stack self)) [ch "{"]
    then ret tt
    else if py_eq_str current_top [ch "{"] && (c =? DQUOTE) then
      payload_add c ;;
      set_state KEY
    else if py_eq_str current_top [ch "["] then
      if c =? DQUOTE then
        stack_append (PyInt 0) ;;
        set_payload [DQUOTE] ;;
        set_state STRING_VALUE
      else if is_atomic_value_char c then
        stack_append (PyInt 0) ;;
        set_payload [c] ;;
        set_state ATOMIC_VALUE
      else
        set_state INVALID ;;
        raise (RuntimeError (InvalidArrayValueStart c))
    else
      let is_inside_object :=
        (2 <=? length (stack self))%nat
        && py_eq_str (stack_m2 (stack self)) [ch "{"]
        && isinstance_str current_top in
      if is_inside_object then _handle_inside_object_value c
      else
        set_state INVALID ;;
        raise (RuntimeError (CannotRecognize c)).

Definition feed_char_key (c : char) : M t unit :=
  self <- get ;;
  assert (match payload self with
          | [] => false
          | c0 :: _ => c0 =? DQUOTE
          end) ;;
  let backslash_count :=
    (length (payload self)
     - length (rstrip [BACKSLASH] (payload self)))%nat in
  if (c =? DQUOTE) && (backslash_count mod 2 =? 0)%nat then
    let payload' := payload self ++ [c] in
    key <- call (json_loads payload') ;;
    stack_append key ;;
    set_payload [] ;;
    set_state OUTSIDE
  else payload_add c.

(** [self_feed_char] is the method [self.feed_char] that the body
    calls on the terminating character. *)
Definition feed_char_atomic_value
           (self_feed_char : char -> M t unit) (c : char) : M t unit :=
  index_key <- calculate_current_index_key ;;
  if negb (is_atomic_value_char c) then
    self <- get ;;
    value <- call (json_loads (payload self)) ;;
    set_payload [] ;;
    toyield_append (Value index_key value) ;;
    stack_pop ;;
    set_state OUTSIDE ;;
    self_feed_char c
  else payload_add c.

(** A method call on the object held in [payload_string_parser]. *)
Definition on_string_parser {A} (m : M StreamJsonStringParser.t A)
  : M t A :=
  fun self =>
    match payload_string_parser self with
    | None => (self, Raise AttributeError)
    | Some sp =>
        let (sp', r) := m sp in
        (with_payload_string_parser (Some sp') self, r)
    end.

Definition feed_char_string_value (c : char) : M t unit :=
  modify (fun self =>
            match payload_string_parser self with
            | None =>
                with_payload_string_parser
                  (Some StreamJsonStringParser.__init__) self
            | Some _ => self
            end) ;;
  on_string_parser (StreamJsonStringParser.feed_char c) ;;
  payload_add c ;;
  index_key <- calculate_current_index_key ;;
  parsed <- on_string_parser StreamJsonStringParser.get_escaped_char ;;
  match parsed with
  | RStr s => toyield_append (ValuePiece index_key s)
  | RBool is_string_ended =>
      if is_string_ended then
        self <- get ;;
        value <- call (json_loads (payload self)) ;;
        toyield_append (Value index_key value) ;;
        stack_pop ;;
        set_state OUTSIDE ;;
        modify (with_payload_string_parser None) ;;
        set_payload []
      else ret tt
  end.

(** The body of [feed_char], with the method it dispatches to for the
    re-fed character left open. *)
Definition feed_char_body (self_feed_char : char -> M t unit) (c : char)
  : M t unit :=
  self <- get ;;
  match state self with
  | OUTSIDE => feed_char_outside c
  | KEY => feed_char_key c
  | STRING_VALUE => feed_char_string_value c
  | ATOMIC_VALUE => feed_char_atomic_value self_feed_char c
  | INVALID => raise (RuntimeError InvalidParserState)
  end.

(** [feed_char] calls itself only from [feed_char_atomic_value], right
    after setting the state to [OUTSIDE], and [feed_char_outside] does
    not call back: two unfoldings of the body reach every call.
    [feed_char_unfold] below proves the recursive equation of the
    source for this definition. *)
Definition feed_char : char -> M t unit :=
  feed_char_body (feed_char_body (fun _ => raise RecursionError)).

(** [for c in s: self.feed_char(c)] *)
Fixpoint feed_string (s : pystr) : M t unit :=
  match s with
  | [] => ret tt
  | c :: s' => feed_char c ;; feed_string s'
  end.

Definition __next__ : M t event :=
  self <- get ;;
  match toyield self with
  | [] => raise StopIteration
  | e :: rest => modify (with_toyield rest) ;; ret e
  end.

End StreamJsonParser.

Import StreamJsonParser.

(** ** Callers

    What a caller does with a parser: feeding, and pulling events with
    [next(parser)]. *)

(** One [feed_char] call per character, the caller catching every
    exception: the outcome of each call. *)
Fixpoint feed_chars_catching (cs : pystr) (p : t) : t * list (outcome unit) :=
  match cs with
  | [] => (p, [])
  | c :: cs' =>
      let (p1, r) := feed_char c p in
      let (p2, rs) := feed_chars_catching cs' p1 in
      (p2, r :: rs)
  end.

(** [for e in parser: ...]: pull until [StopIteration]; [fuel] bounds
    the number of pulls. *)
Fixpoint drain (fuel : nat) (p : t) : t * list event :=
  match fuel with
  | O => (p, [])
  | S k =>
      match __next__ p with
      | (p1, Return e) => let (p2, es) := drain k p1 in (p2, e :: es)
      | (p1, Raise _) => (p1, [])
      end
  end.

Definition drain_all (p : t) : t * list event :=
  drain (S (length (toyield p))) p.

(** [parser.feed_string(chunk)] for each chunk in turn; an exception
    ends the sequence. *)
Fixpoint feed_chunks (chunks : list pystr) : M t unit :=
  match chunks with
  | [] => ret tt
  | s :: rest => feed_string s ;; feed_chunks rest
  end.

(** The loop of the module's examples: feed a chunk, then pull every
    queued event, chunk after chunk.  The result holds the events pulled
    so far. *)
Fixpoint feed_chunks_draining (chunks : list pystr) (p : t)
  : t * list event * outcome unit :=
  match chunks with
  | [] => (p, [], Return tt)
  | s :: rest =>
      match feed_string s p with
      | (p1, Return _) =>
          let (p2, es) := drain_all p1 in
          let '(p3, es', r) := feed_chunks_draining rest p2 in
          (p3, es ++ es', r)
      | (p1, Raise e) => (p1, [], Raise e)
      end
  end.

(** A caller's call on the parser, and a run of such calls with every
    exception caught. *)
Inductive action : Type :=
| Feed (c : char)
| Next.

Inductive call_result : Type :=
| Fed (r : outcome unit)
| Pulled (r : outcome event).

Fixpoint run_calls (acts : list action) (p : t) : t * list call_result :=
  match acts with
  | [] => (p, [])
  | Feed c :: rest =>
      let (p1, r) := feed_char c p in
      let (p2, rs) := run_calls rest p1 in
      (p2, Fed r :: rs)
  | Next :: rest =>
      let (p1, r) := __next__ p in
      let (p2, rs) := run_calls rest p1 in
      (p2, Pulled r :: rs)
  end.

Fixpoint pulled_events (rs : list call_result) : list event :=
  match rs with
  | [] => []
  | Pulled (Return e) :: rest => e :: pulled_events rest
  | _ :: rest => pulled_events rest
  end.

(** The parsers a caller can hold: a new one, and whatever calls make of
    it, whether they return or raise. *)
Inductive reachable : t -> Prop :=
| reach_init : reachable __init__
| reach_feed_char c p : reachable p -> reachable (fst (feed_char c p))
| reach_next p : reachable p -> reachable (fst (__next__ p)).

(** The [Value] events of a queue, and the characters of its
    [ValuePiece] events at a path. *)
Definition values_of (q : list event) : list (pystr * pyvalue) :=
  flat_map (fun e => match e with
                     | Value k v => [(k, v)]
                     | ValuePiece _ _ => []
                     end) q.

Definition pieces_at (path : pystr) (q : list event) : pystr :=
  flat_map (fun e => match e with
                     | ValuePiece k c => if pystr_eqb k path then c else []
                     | Value _ _ => []
                     end) q.

(** What the payload and the stack look like in each state. *)
Definition shape (p : t) : Prop :=
  match state p with
  | OUTSIDE => payload p = []
  | INVALID => True
  | KEY | STRING_VALUE =>
      (exists rest, payload p = DQUOTE :: rest) /\ stack p <> []
  | ATOMIC_VALUE =>
      (exists c rest, payload p = c :: rest /\ is_atomic_value_char c = true)
      /\ stack p <> []
  end.

(** [queued x p]: the parser [p] with the events [x] ahead of its own
    in the queue. *)
Definition queued (x : list event) (p : t) : t :=
  with_toyield (x ++ toyield p) p.

(** The texts [ESCAPED] describes: the five two-character escapes, and
    [x], [u], [U] with their 2, 4, 8 hex digits. *)
Inductive escape_form : pystr -> Prop :=
| esc_simple c :
    In c [ch "n"; ch "t"; ch "r"; BACKSLASH; DQUOTE] ->
    escape_form [BACKSLASH; c]
| esc_hex c n digits :
    In (c, n) [(ch "x", 2%nat); (ch "u", 4%nat); (ch "U", 8%nat)] ->
    length digits = n -> forallb is_hex digits = true ->
    escape_form (BACKSLASH :: c :: digits).

(** The exceptions that stand for limits of the model rather than for
    behaviour of the program. *)
Definition model_only (e : exn) : bool :=
  match e with
  | NotModelled | RecursionError | KeyError | AttributeError => true
  | _ => false
  end.

(** A stack on which every [int] is 0. *)
Definition slots_ok (sk : list pyvalue) : Prop :=
  Forall (fun v => isinstance_str v = true \/ v = PyInt 0) sk.

(** A parser stopped at the closing quote of a string whose whole-string
    decode fails: the decoder still holds the quote, and no text added
    to the payload makes the decode succeed. *)
Definition quote_pending (q : t) : Prop :=
  state q = STRING_VALUE
  /\ (exists segs, index_key_segments (stack q) = Return segs)
  /\ (exists r, payload_string_parser q
                = Some (StreamJsonStringParser.mk (DQUOTE :: r)))
  /\ (forall suffix, json_loads (payload q ++ suffix) = Raise JSONDecodeError).

(** Feeding [prefix] to a new parser opens a string value whose text the
    escape decoder accepts; the closing quote then makes the
    whole-string decode raise while the state stays [STRING_VALUE] and
    no [Value] is queued, and every later character is handled by
    [feed_char_string_value] and raises again. *)
Definition decode_error_keeps_string_state (prefix : pystr) : Prop :=
  let (p0, r0) := feed_string prefix __init__ in
  let (p1, r1) := feed_char DQUOTE p0 in
  r0 = Return tt
  /\ state p0 = STRING_VALUE
  /\ r1 = Raise JSONDecodeError
  /\ state p1 = STRING_VALUE
  /\ values_of (toyield p1) = []
  /\ forall cs,
      let (p2, rs) := feed_chars_catching cs p1 in
      state p2 = STRING_VALUE
      /\ Forall (fun r => r = Raise JSONDecodeError) rs
      /\ toyield p2 = toyield p1
      /\ forall c, feed_char c p2 = feed_char_string_value c p2.

(** ** Vocabulary of the further properties *)

(** The segment of an object key in a path: bare when it starts with a
    digit, a letter, a hyphen or an underscore, and as a JSON string
    otherwise. *)
Definition key_repr (k : pystr) : pystr :=
  if key_is_bare k then k else json_dumps k.

(** The decoder object exists only inside a string value. *)
Definition decoder_only_in_string (p : t) : Prop :=
  state p <> STRING_VALUE -> payload_string_parser p = None.

(** The text between the quotes of a JSON string, token by token: a
    plain character, a backslash and one character, or [u] and four
    hex digits after a backslash. *)
Inductive token : Type :=
| Plain (c : char)
| Escaped (e : char)
| Unicode (h1 h2 h3 h4 : char).

Definition token_text (k : token) : pystr :=
  match k with
  | Plain c => [c]
  | Escaped e => [BACKSLASH; e]
  | Unicode h1 h2 h3 h4 => [BACKSLASH; ch "u"; h1; h2; h3; h4]
  end.

(** The tokens considered: no quote, backslash or control character as
    a plain character; [n], [t], [r], the backslash, the quote and the
    slash after a backslash; no high surrogate as a [u] escape. *)
Definition token_ok (k : token) : bool :=
  match k with
  | Plain c => negb (c =? DQUOTE) && negb (c =? BACKSLASH) && negb (c <? 32)
  | Escaped e =>
      str_in e [ch "n"; ch "t"; ch "r"; BACKSLASH; DQUOTE; ch "/"]
  | Unicode h1 h2 h3 h4 =>
      forallb is_hex [h1; h2; h3; h4]
      && negb (is_high_surrogate (hex_value [h1; h2; h3; h4]))
  end.

(** The character a token stands for. *)
Definition token_char (k : token) : char :=
  match k with
  | Plain c => c
  | Escaped e =>
      if e =? ch "n" then 10
      else if e =? ch "t" then 9
      else if e =? ch "r" then 13
      else e
  | Unicode h1 h2 h3 h4 => hex_value [h1; h2; h3; h4]
  end.


(** [len(payload) - len(payload.rstrip(backslash))], the
    [backslash_count] of [feed_char_key]. *)
Definition trailing_backslashes (s : pystr) : nat :=
  (length s - length (rstrip [BACKSLASH] s))%nat.

(** The exceptions [feed_char] can raise in each state. *)
Definition may_raise (s : ParserState) (e : exn) : bool :=
  match s, e with
  | OUTSIDE, (RuntimeError _ | AssertionError) => true
  | KEY, JSONDecodeError => true
  | STRING_VALUE, (AssertionError | UnicodeDecodeError | JSONDecodeError) =>
      true
  | ATOMIC_VALUE, (AssertionError | IndexError | JSONDecodeError | ValueError
                   | RuntimeError _) => true
  | INVALID, RuntimeError InvalidParserState => true
  | _, _ => false
  end.

(** The text of an opening bracket, as [_handle_brackets] pushes it. *)
Definition is_marker (v : pyvalue) : bool :=
  py_eq_str v [ch "{"] || py_eq_str v [ch "["].

(** Inside a string value the top of the stack is no bracket text. *)
Definition string_slot (p : t) : Prop :=
  state p = STRING_VALUE ->
  exists sk v, stack p = sk ++ [v] /\ is_marker v = false.

Definition is_separator (c : char) : bool :=
  is_whitespace c || (c =? ch ",").

(** * Properties *)

(** ** Tactics *)

Ltac run_m :=
  cbv [bind ret raise get modify assert call set_state set_payload payload_add
       stack_append stack_pop toyield_append on_string_parser
       calculate_current_index_key] in *.

Ltac simp_rec :=
  cbv [with_state with_stack with_payload with_started with_toyield
       with_payload_string_parser] in *;
  cbn [stack state payload toyield started payload_string_parser
       fst snd] in *.

(** Case analysis on an innermost [match] of the goal; the re-fed
    character of [feed_char_atomic_value] is left to its own lemma. *)
Ltac break_inner :=
  match goal with
  | |- context [match ?x with _ => _ end] =>
      lazymatch x with
      | context [match _ with _ => _ end] => fail
      | feed_char _ _ => fail
      | _ => destruct x eqn:?
      end
  end.

Ltac crush_m := run_m; simp_rec; repeat (break_inner; simp_rec).

Ltac bool_hyps :=
  repeat match goal with
         | H : _ && _ = true |- _ => apply andb_prop in H; destruct H
         | H : negb _ = true |- _ => apply negb_true_iff in H
         | H : negb _ = false |- _ => apply negb_false_iff in H
         | H : (_ =? _) = true |- _ => apply N.eqb_eq in H; try subst
         | H : (_ =? _)%nat = true |- _ => apply Nat.eqb_eq in H
         end.

Ltac queued_leaves :=
  unfold queued; simp_rec; rewrite ?app_assoc; reflexivity.

(** ** Lists and text *)

Lemma list_pop_nil {A} (l : list A) : list_pop l = None -> l = [].
Proof.
  destruct l; cbn; [reflexivity|].
  destruct (list_pop l) as [[? ?]|]; discriminate.
Qed.

Lemma list_pop_some {A} (l rest : list A) v :
  list_pop l = Some (rest, v) -> l = rest ++ [v].
Proof.
  revert rest. induction l as [|x l IH]; intros rest; [discriminate|].
  cbn. destruct (list_pop l) as [[t' y]|] eqn:E.
  - intros [= <- <-]. cbn. f_equal. now apply IH.
  - intros [= <- <-]. apply list_pop_nil in E. now subst.
Qed.

Lemma list_pop_app {A} (l : list A) x : list_pop (l ++ [x]) = Some (l, x).
Proof.
  induction l as [|y l IH]; cbn; [reflexivity|]. now rewrite IH.
Qed.

Lemma match_app_unit {A B} (l : list A) x (a b : B) :
  match l ++ [x] with [] => a | _ :: _ => b end = b.
Proof. destruct l; reflexivity. Qed.

Lemma app_unit_nonempty {A} (l : list A) x : l ++ [x] <> [].
Proof. destruct l; discriminate. Qed.

Lemma len2_nonempty {A} (sk : list A) :
  (2 <=? length sk)%nat = true -> sk <> [].
Proof. intros H ->. discriminate. Qed.

Lemma firstn_length_app {A} (g rest : list A) :
  firstn (length g) (g ++ rest) = g.
Proof. induction g; cbn; congruence. Qed.

Lemma stack_top_str_nonempty sk s :
  py_eq_str (stack_top sk) s = true -> sk <> [].
Proof. intros H ->. discriminate. Qed.

Lemma stack_top_isstr_nonempty sk :
  isinstance_str (stack_top sk) = true -> sk <> [].
Proof. intros H ->. discriminate. Qed.

#[local] Hint Resolve app_unit_nonempty len2_nonempty
  stack_top_str_nonempty stack_top_isstr_nonempty : core.

Lemma str_in_In c s : str_in c s = true <-> In c s.
Proof.
  unfold str_in. rewrite existsb_exists. split.
  - intros (x & Hx & E). apply N.eqb_eq in E. now subst.
  - intros H. exists c. split; [assumption|apply N.eqb_refl].
Qed.

Lemma str_in_not_In c s : str_in c s = false <-> ~ In c s.
Proof.
  rewrite <- str_in_In. destruct (str_in c s); intuition congruence.
Qed.

Lemma atomic_char_cases c :
  is_atomic_value_char c = true -> In c (lit "0123456789truefalsn").
Proof.
  intros H. apply str_in_In in H. cbn in H. cbn. intuition.
Qed.

(** ** The escape decoder *)

Lemma hex_run_spec n s h :
  hex_run n s = Some h ->
  h = firstn n s /\ length h = n /\ forallb is_hex h = true.
Proof.
  unfold hex_run. destruct (_ && _) eqn:E; [|discriminate].
  intros [= <-]. bool_hyps. auto.
Qed.

(** A match of [ESCAPED] is an escape form at the start of the text. *)
Lemma ESCAPED_match_spec s g :
  ESCAPED_match s = Some g ->
  escape_form g /\ exists rest, s = g ++ rest.
Proof.
  unfold ESCAPED_match. destruct s as [|b [|c t]]; try discriminate.
  destruct (negb (b =? BACKSLASH)) eqn:Hb; [discriminate|]. bool_hyps.
  destruct (str_in c _) eqn:Hc.
  { intros [= <-]. apply str_in_In in Hc.
    split; [now constructor|now exists t]. }
  assert (Hrun : forall n,
             In (c, n) [(ch "x", 2%nat); (ch "u", 4%nat); (ch "U", 8%nat)] ->
             option_map (fun h => BACKSLASH :: c :: h) (hex_run n t) = Some g ->
             escape_form g /\ exists rest, BACKSLASH :: c :: t = g ++ rest).
  { intros n Hn. destruct (hex_run n t) as [h|] eqn:Hh; [|discriminate].
    intros [= <-]. apply hex_run_spec in Hh. destruct Hh as (-> & Hlen & Hhex).
    split; [now apply esc_hex with n|].
    exists (skipn n t). cbn [app]. now rewrite firstn_skipn. }
  destruct (c =? ch "x") eqn:Hx; [bool_hyps; apply Hrun; cbn; auto|].
  destruct (c =? ch "u") eqn:Hu; [bool_hyps; apply Hrun; cbn; auto|].
  destruct (c =? ch "U") eqn:HU; [bool_hyps; apply Hrun; cbn; auto|].
  discriminate.
Qed.

(** [ESCAPED] matches every text that starts with an escape form. *)
Lemma ESCAPED_match_complete g rest :
  escape_form g -> ESCAPED_match (g ++ rest) = Some g.
Proof.
  intros [c Hc | c n digits Hn Hlen Hhex].
  - cbn in Hc. repeat destruct Hc as [<- | Hc]; try contradiction; reflexivity.
  - assert (Hrun : hex_run n (digits ++ rest) = Some digits).
    { unfold hex_run. subst n. rewrite firstn_length_app, Nat.eqb_refl, Hhex.
      reflexivity. }
    cbn in Hn. repeat destruct Hn as [[= <- <-] | Hn]; try contradiction.
    all: cbn [app]; unfold ESCAPED_match.
    all: change (negb (BACKSLASH =? BACKSLASH)) with false; cbv iota.
    all: match goal with
         | |- context [str_in ?c ?l] =>
             let v := eval vm_compute in (str_in c l) in
             change (str_in c l) with v
         end; cbv iota.
    all: repeat match goal with
           | |- context [ch ?a =? ch ?b] =>
               let v := eval vm_compute in (ch a =? ch b) in
               change (ch a =? ch b) with v
           end; cbv iota.
    all: now rewrite Hrun.
Qed.

(** The decode of a matched span: a single code point, or the codec's
    rejection of a [U] escape above 0x10FFFF.  In particular the span is
    always inside the modelled part of the codec. *)
Lemma ESCAPED_match_modelled g :
  escape_form g ->
  (exists d, codecs_decode_unicode_escape g = Return [d])
  \/ (codecs_decode_unicode_escape g = Raise UnicodeDecodeError
      /\ exists digits,
          g = BACKSLASH :: ch "U" :: digits
          /\ length digits = 8%nat /\ forallb is_hex digits = true
          /\ 1114111 < hex_value digits).
Proof.
  intros [c Hc | c n digits Hn Hlen Hhex].
  - left. cbn in Hc.
    repeat destruct Hc as [<- | Hc]; try contradiction; cbn; eauto.
  - cbn in Hn. repeat destruct Hn as [[= <- <-] | Hn]; try contradiction.
    all: destruct digits as [|d0 digits]; [discriminate|].
    all: unfold codecs_decode_unicode_escape; rewrite Hhex, Hlen;
      cbn -[hex_value N.leb]; eauto.
    destruct (_ <=? _) eqn:Hle; [eauto|].
    right. split; [reflexivity|]. apply N.leb_gt in Hle. eauto 6.
Qed.

(** [get_escaped_char] raises in exactly one situation: the buffer
    starts with a [U] escape whose eight hex digits exceed 0x10FFFF. *)
Lemma get_escaped_char_raise sp e :
  snd (StreamJsonStringParser.get_escaped_char sp) = Raise e ->
  e = UnicodeDecodeError
  /\ exists digits rest,
      StreamJsonStringParser.remains sp = BACKSLASH :: ch "U" :: digits ++ rest
      /\ length digits = 8%nat /\ forallb is_hex digits = true
      /\ 1114111 < hex_value digits.
Proof.
  destruct sp as [rem]. unfold StreamJsonStringParser.get_escaped_char.
  run_m. cbn [StreamJsonStringParser.remains].
  destruct rem as [|c rest]; [discriminate|].
  destruct (c =? DQUOTE); [discriminate|].
  destruct (negb (c =? BACKSLASH)) eqn:Hc; [discriminate|]. bool_hyps.
  destruct (ESCAPED_match _) as [g|] eqn:Hg.
  2:{ destruct rest as [|c1 rest']; [discriminate|].
      destruct (negb _); discriminate. }
  apply ESCAPED_match_spec in Hg. destruct Hg as (Hform & tl & Hs).
  rewrite Hs, firstn_length_app.
  apply ESCAPED_match_modelled in Hform.
  destruct Hform as [[d ->] | (-> & digits & -> & Hrest)]; [discriminate|].
  cbn [snd]. intros [= <-]. split; [reflexivity|].
  exists digits, tl. injection Hs as ->. auto.
Qed.

Lemma get_escaped_char_raise_eq sp sp' e :
  StreamJsonStringParser.get_escaped_char sp = (sp', Raise e) ->
  e = UnicodeDecodeError.
Proof.
  intros H. apply (f_equal snd) in H. now apply get_escaped_char_raise in H.
Qed.

(** Every [U] escape above 0x10FFFF makes [get_escaped_char] raise,
    whatever follows it in the buffer. *)
Lemma out_of_range_escape_raises digits rest :
  length digits = 8%nat -> forallb is_hex digits = true ->
  1114111 < hex_value digits ->
  StreamJsonStringParser.get_escaped_char
    (StreamJsonStringParser.mk (BACKSLASH :: ch "U" :: digits ++ rest))
  = (StreamJsonStringParser.mk (BACKSLASH :: ch "U" :: digits ++ rest),
     Raise UnicodeDecodeError).
Proof.
  intros Hlen Hhex Hbig.
  assert (Hform : escape_form (BACKSLASH :: ch "U" :: digits)).
  { apply esc_hex with 8%nat; cbn; auto. }
  unfold StreamJsonStringParser.get_escaped_char. run_m.
  cbn [StreamJsonStringParser.remains].
  change (BACKSLASH =? DQUOTE) with false.
  change (negb (BACKSLASH =? BACKSLASH)) with false. cbv iota.
  change (BACKSLASH :: ch "U" :: digits ++ rest)
    with ((BACKSLASH :: ch "U" :: digits) ++ rest).
  rewrite (ESCAPED_match_complete _ rest Hform), firstn_length_app.
  destruct (ESCAPED_match_modelled _ Hform)
    as [[d Hd] | [Hd _]]; [|now rewrite Hd].
  exfalso. revert Hd. unfold codecs_decode_unicode_escape.
  destruct digits as [|d0 digits]; [discriminate|].
  rewrite Hhex, Hlen. cbn -[hex_value N.leb].
  apply N.leb_gt in Hbig. now rewrite Hbig.
Qed.

(** C6 (the code breaks the claim): [get_escaped_char] does raise.  On
    the buffer holding the escape [\U00110000], which [ESCAPED] matches,
    the codec rejects the code point 0x110000 and the
    [UnicodeDecodeError] leaves [get_escaped_char] with the buffer
    unchanged; fed through the engine as a string value, the last hex
    digit makes [feed_char] raise the same exception. *)
Theorem C6_out_of_range_escape_raises :
  StreamJsonStringParser.get_escaped_char
    (StreamJsonStringParser.mk (lit "\U00110000"))
  = (StreamJsonStringParser.mk (lit "\U00110000"), Raise UnicodeDecodeError)
  /\ (let (p, r) := feed_string (lit "{'k':'\U0011000") __init__ in
      r = Return tt
      /\ snd (feed_char (ch "0") p) = Raise UnicodeDecodeError).
Proof.
  split.
  - apply (out_of_range_escape_raises (lit "00110000") []); reflexivity.
  - vm_compute. auto.
Qed.

(** C8: on a buffer that starts with a backslash and that [ESCAPED]
    does not match, [get_escaped_char] consumes the backslash and the
    next character and returns that character when there is one and it
    is none of [x], [u], [U], the backslash and the double quote; in
    every other case it returns [False] and leaves the buffer as it
    is. *)
Theorem C8_unrecognized_escape_fallback (rest : pystr) :
  ESCAPED_match (BACKSLASH :: rest) = None ->
  (forall c1 rest',
      rest = c1 :: rest' ->
      ~ In c1 [ch "x"; ch "u"; ch "U"; BACKSLASH; DQUOTE] ->
      StreamJsonStringParser.get_escaped_char
        (StreamJsonStringParser.mk (BACKSLASH :: rest))
      = (StreamJsonStringParser.mk rest', Return (RStr [c1])))
  /\ (rest = []
      \/ (exists c1 rest',
             rest = c1 :: rest'
             /\ In c1 [ch "x"; ch "u"; ch "U"; BACKSLASH; DQUOTE]) ->
      StreamJsonStringParser.get_escaped_char
        (StreamJsonStringParser.mk (BACKSLASH :: rest))
      = (StreamJsonStringParser.mk (BACKSLASH :: rest), Return (RBool false))).
Proof.
  intros Hno. unfold StreamJsonStringParser.get_escaped_char. run_m.
  cbn [StreamJsonStringParser.remains].
  change (BACKSLASH =? DQUOTE) with false.
  change (negb (BACKSLASH =? BACKSLASH)) with false. cbv iota.
  rewrite Hno. split.
  - intros c1 rest' -> Hc1. apply str_in_not_In in Hc1. now rewrite Hc1.
  - intros [-> | (c1 & rest' & -> & Hc1)]; [reflexivity|].
    apply str_in_In in Hc1. now rewrite Hc1.
Qed.

Lemma C8_unrecognized_escape_fallback_witness :
  StreamJsonStringParser.get_escaped_char
    (StreamJsonStringParser.mk (lit "\q"))
  = (StreamJsonStringParser.mk [], Return (RStr (lit "q")))
  /\ StreamJsonStringParser.get_escaped_char
       (StreamJsonStringParser.mk (lit "\u12"))
     = (StreamJsonStringParser.mk (lit "\u12"), Return (RBool false)).
Proof.
  split.
  - apply (proj1 (C8_unrecognized_escape_fallback (lit "q") eq_refl)
                 (ch "q") []).
    + reflexivity.
    + cbn. intuition discriminate.
  - apply (proj2 (C8_unrecognized_escape_fallback (lit "u12") eq_refl)).
    right. exists (ch "u"), (lit "12"). split; [reflexivity|]. cbn. auto.
Defined.

(** ** The engine, case by case *)

(** [feed_char] satisfies the recursive equation of the source: the
    re-fed character is dispatched in state [OUTSIDE], so the innermost
    method of the definition is never called. *)
Lemma feed_char_unfold c p : feed_char c p = feed_char_body feed_char c p.
Proof.
  unfold feed_char at 1. unfold feed_char_body at 1 3. run_m.
  destruct (state p); reflexivity.
Qed.

Lemma feed_char_in_state c p :
  feed_char c p =
  match state p with
  | OUTSIDE => feed_char_outside c p
  | KEY => feed_char_key c p
  | STRING_VALUE => feed_char_string_value c p
  | ATOMIC_VALUE => feed_char_atomic_value feed_char c p
  | INVALID => (p, Raise (RuntimeError InvalidParserState))
  end.
Proof.
  rewrite feed_char_unfold. unfold feed_char_body. run_m.
  destruct (state p); reflexivity.
Qed.

(** [feed_char_string_value], step by step. *)
Lemma feed_char_string_value_eq c p :
  feed_char_string_value c p =
  let sp :=
    match payload_string_parser p with
    | Some sp => sp
    | None => StreamJsonStringParser.__init__
    end in
  let sp1 :=
    StreamJsonStringParser.mk (StreamJsonStringParser.remains sp ++ [c]) in
  let p1 := with_payload (payload p ++ [c])
              (with_payload_string_parser (Some sp1) p) in
  match index_key_segments (stack p) with
  | Raise e => (p1, Raise e)
  | Return segs =>
      let (sp2, parsed) := StreamJsonStringParser.get_escaped_char sp1 in
      let p2 := with_payload_string_parser (Some sp2) p1 in
      match parsed with
      | Raise e => (p2, Raise e)
      | Return (RStr s) =>
          (with_toyield (toyield p ++ [ValuePiece (join_dot segs) s]) p2,
           Return tt)
      | Return (RBool false) => (p2, Return tt)
      | Return (RBool true) =>
          match json_loads (payload p ++ [c]) with
          | Raise e => (p2, Raise e)
          | Return v =>
              let p3 :=
                with_toyield (toyield p ++ [Value (join_dot segs) v]) p2 in
              match list_pop (stack p) with
              | None => (p3, Raise IndexError)
              | Some (rest, _) =>
                  (with_payload []
                     (with_payload_string_parser None
                        (with_state OUTSIDE (with_stack rest p3))),
                   Return tt)
              end
          end
      end
  end.
Proof.
  destruct p as [st sk ty pl psp sd].
  unfold feed_char_string_value, StreamJsonStringParser.feed_char.
  destruct psp as [sp|]; run_m; simp_rec; cbv zeta;
    repeat (break_inner; simp_rec); reflexivity.
Qed.

(** ** The shape of a parser in each state *)

Lemma shape_outside c p :
  state p = OUTSIDE -> shape p -> shape (fst (feed_char_outside c p)).
Proof.
  destruct p as [st sk ty pl psp sd]. unfold shape. simp_rec. intros -> ->.
  unfold feed_char_outside, _handle_brackets, _handle_inside_object_value.
  crush_m; trivial; bool_hyps; cbn [app]; eauto 6.
Qed.

Lemma shape_key c p :
  state p = KEY -> shape p -> shape (fst (feed_char_key c p)).
Proof.
  destruct p as [st sk ty pl psp sd]. unfold shape. simp_rec.
  intros -> [[rest ->] Hsk].
  unfold feed_char_key.
  crush_m; trivial; bool_hyps; cbn [app]; eauto 6.
Qed.

Lemma shape_string c p :
  state p = STRING_VALUE -> shape p ->
  shape (fst (feed_char_string_value c p)).
Proof.
  destruct p as [st sk ty pl psp sd]. unfold shape. simp_rec.
  intros -> [[rest ->] Hsk].
  unfold feed_char_string_value.
  crush_m; trivial; bool_hyps; cbn [app]; eauto 6.
Qed.

Lemma shape_atomic c p :
  state p = ATOMIC_VALUE -> shape p ->
  shape (fst (feed_char_atomic_value feed_char c p)).
Proof.
  destruct p as [st sk ty pl psp sd]. intros Hst H.
  unfold shape in H. simp_rec. subst st.
  destruct H as [(c0 & rest & -> & Hc0) Hsk].
  unfold feed_char_atomic_value.
  crush_m; try (unfold shape; simp_rec; cbn [app]; now eauto 6).
  - rewrite feed_char_in_state. simp_rec. now apply shape_outside.
  - match goal with H : list_pop _ = None |- _ =>
      now apply list_pop_nil in H end.
Qed.

Lemma shape_feed_char c p : shape p -> shape (fst (feed_char c p)).
Proof.
  intros H. rewrite feed_char_in_state.
  destruct (state p) eqn:Hst;
    auto using shape_outside, shape_key, shape_string, shape_atomic.
Qed.

Lemma shape_next p : shape p -> shape (fst (__next__ p)).
Proof.
  destruct p as [st sk ty pl psp sd]. unfold __next__.
  crush_m; trivial.
Qed.

Lemma reachable_shape p : reachable p -> shape p.
Proof.
  induction 1; auto using shape_feed_char, shape_next.
  unfold shape; reflexivity.
Qed.

(** With an empty stack a caller's parser is between tokens or has
    failed. *)
Lemma reachable_empty_stack p :
  reachable p -> stack p = [] -> state p = OUTSIDE \/ state p = INVALID.
Proof.
  intros Hr Hs. apply reachable_shape in Hr. unfold shape in Hr.
  destruct (state p); auto; now destruct Hr as [_ []].
Qed.

Lemma reachable_feed_string s p :
  reachable p -> reachable (fst (feed_string s p)).
Proof.
  revert p. induction s as [|c s IH]; intros p Hp; [assumption|].
  cbn [feed_string]. unfold bind.
  pose proof (reach_feed_char c p Hp) as H1.
  destruct (feed_char c p) as [p1 [[]|e]]; [now apply IH|assumption].
Qed.

(** ** Exceptions that only the model has *)

Lemma json_finish_raise v rest e :
  json_finish v rest = Raise e -> e = JSONDecodeError.
Proof. unfold json_finish. destruct (skip_ws rest); congruence. Qed.

Lemma json_finish_return v rest w : json_finish v rest = Return w -> w = v.
Proof. unfold json_finish. destruct (skip_ws rest); congruence. Qed.

(** A payload that starts with a quote or an atomic character is inside
    the modelled part of [json.loads]. *)
Lemma json_loads_modelled c rest e :
  c = DQUOTE \/ is_atomic_value_char c = true ->
  json_loads (c :: rest) = Raise e -> e = JSONDecodeError \/ e = ValueError.
Proof.
  intros Hc. unfold json_loads.
  assert (Hws : skip_ws (c :: rest) = c :: rest).
  { destruct Hc as [-> | Hc]; [reflexivity|].
    apply atomic_char_cases in Hc. cbn in Hc.
    repeat destruct Hc as [<- | Hc]; try contradiction; reflexivity. }
  rewrite Hws.
  assert (Hbr : (c =? DQUOTE) = true
                \/ ((c =? ch "{") || (c =? ch "[")) = false).
  { destruct Hc as [-> | Hc]; [now left|right].
    apply atomic_char_cases in Hc. cbn in Hc.
    repeat destruct Hc as [<- | Hc]; try contradiction; reflexivity. }
  assert (Hfin : forall v r, json_finish v r = Raise e ->
                             e = JSONDecodeError \/ e = ValueError).
  { intros v r H. left. now apply json_finish_raise in H. }
  destruct (c =? DQUOTE) eqn:Hq.
  { destruct (scanstring rest) as [[v r]|]; [apply Hfin|intros [= <-]; auto]. }
  destruct Hbr as [Hbr | Hbr]; [discriminate|rewrite Hbr].
  repeat match goal with
         | |- (if ?b then _ else _) = _ -> _ => destruct b; [apply Hfin|]
         end.
  destruct (scan_number _) as [[[v|e'] r]|] eqn:Hn;
    [apply Hfin| |intros [= <-]; auto].
  intros [= <-]. right. revert Hn. unfold scan_number.
  repeat (break_inner; try discriminate).
  all: now intros [= <- _].
Qed.

Lemma json_loads_quoted rest v :
  json_loads (DQUOTE :: rest) = Return v -> isinstance_str v = true.
Proof.
  unfold json_loads. change (skip_ws (DQUOTE :: rest)) with (DQUOTE :: rest).
  change (DQUOTE =? DQUOTE) with true. cbv iota.
  destruct (scanstring rest) as [[s r]|]; [|discriminate].
  intros H. apply json_finish_return in H. now subst.
Qed.

Lemma PAIRS_defined c : str_in c [ch "}"; ch "]"] = true -> PAIRS c <> None.
Proof.
  intros H. apply str_in_In in H. cbn in H.
  repeat destruct H as [<- | H]; try contradiction; discriminate.
Qed.

Lemma index_key_segments_raise sk e :
  index_key_segments sk = Raise e -> e = IndexError \/ e = AssertionError.
Proof.
  remember (length sk) as n eqn:Hn.
  revert sk Hn. induction n as [n IH] using lt_wf_ind. intros sk ->.
  destruct sk as [|marker rest]; [discriminate|]. cbn [index_key_segments].
  assert (Hrec : forall l (r : list pystr -> list pystr),
             (length l < length (marker :: rest))%nat ->
             match index_key_segments l with
             | Return x => Return (r x)
             | Raise e0 => Raise e0
             end = (Raise e : outcome (list pystr)) ->
             e = IndexError \/ e = AssertionError).
  { intros l r Hl. destruct (index_key_segments l) eqn:El; [discriminate|].
    intros [= <-]. eapply IH; eauto. }
  destruct (py_eq_str marker [ch "["]).
  { destruct rest as [|key rest']; [intros [= <-]; auto|].
    destruct key; try (intros [= <-]; now auto);
      apply Hrec; cbn; lia. }
  destruct (py_eq_str marker [ch "{"]).
  { destruct rest as [|key rest']; [intros [= <-]; auto|].
    destruct key; try (intros [= <-]; now auto);
      apply Hrec; cbn; lia. }
  intros H. eapply IH; eauto. cbn; lia.
Qed.

Ltac raise_cases :=
  repeat match goal with
         | H : Raise _ = Raise _ |- _ => injection H as <-
         | H : Return _ = Raise _ |- _ => discriminate H
         | H : PAIRS _ = None |- _ => now apply PAIRS_defined in H
         end;
  try match goal with
      | H : list_pop _ = None |- _ => now apply list_pop_nil in H
      | H : json_loads _ = Raise _ |- _ =>
          apply json_loads_modelled in H as [-> | ->]; auto
      | H : index_key_segments _ = Raise _ |- _ =>
          apply index_key_segments_raise in H as [-> | ->]; reflexivity
      | H : StreamJsonStringParser.get_escaped_char _ = (_, Raise _) |- _ =>
          apply get_escaped_char_raise_eq in H as ->; reflexivity
      end.

Lemma outside_no_model_only c p e :
  snd (feed_char_outside c p) = Raise e -> model_only e = false.
Proof.
  destruct p as [st sk ty pl psp sd].
  unfold feed_char_outside, _handle_brackets, _handle_inside_object_value,
    assert.
  crush_m; intros; raise_cases; reflexivity.
Qed.

Lemma key_no_model_only c p e :
  state p = KEY -> shape p ->
  snd (feed_char_key c p) = Raise e -> model_only e = false.
Proof.
  destruct p as [st sk ty pl psp sd]. unfold shape. simp_rec.
  intros -> [[rest ->] Hsk].
  unfold feed_char_key, assert. cbn [app].
  crush_m; intros; raise_cases; reflexivity.
Qed.

Lemma string_no_model_only c p e :
  state p = STRING_VALUE -> shape p ->
  snd (feed_char_string_value c p) = Raise e -> model_only e = false.
Proof.
  destruct p as [st sk ty pl psp sd]. unfold shape. simp_rec.
  intros -> [[rest ->] Hsk].
  unfold feed_char_string_value, StreamJsonStringParser.feed_char.
  destruct psp as [sp|]; cbn [app].
  all: crush_m; intros; raise_cases; reflexivity.
Qed.

Lemma atomic_no_model_only c p e :
  state p = ATOMIC_VALUE -> shape p ->
  snd (feed_char_atomic_value feed_char c p) = Raise e -> model_only e = false.
Proof.
  destruct p as [st sk ty pl psp sd]. unfold shape. simp_rec.
  intros -> [(c0 & rest & -> & Hc0) Hsk].
  unfold feed_char_atomic_value.
  crush_m; intros; raise_cases; try reflexivity.
  match goal with
  | H : snd (feed_char _ _) = _ |- _ =>
      rewrite feed_char_in_state in H; simp_rec;
      now apply outside_no_model_only in H
  end.
Qed.

(** On every parser a caller can hold, [feed_char] raises none of the
    exceptions that stand for the model's limits: the payload handed to
    [json.loads] is always inside the modelled fragment. *)
Lemma reachable_json_modelled c p e :
  reachable p -> snd (feed_char c p) = Raise e -> model_only e = false.
Proof.
  intros Hr. apply reachable_shape in Hr. rewrite feed_char_in_state.
  destruct (state p) eqn:Hst;
    eauto using outside_no_model_only, key_no_model_only,
      string_no_model_only, atomic_no_model_only.
  cbn. now intros [= <-].
Qed.

(** ** Array indices and nested containers *)

Lemma slots_ok_pop sk rest v :
  list_pop sk = Some (rest, v) -> slots_ok sk -> slots_ok rest.
Proof.
  intros H Hs. apply list_pop_some in H. subst sk.
  unfold slots_ok in *. rewrite Forall_app in Hs. tauto.
Qed.

Lemma slots_ok_app sk v :
  slots_ok sk -> isinstance_str v = true \/ v = PyInt 0 ->
  slots_ok (sk ++ [v]).
Proof.
  intros Hs Hv. unfold slots_ok. rewrite Forall_app. split; [assumption|].
  now constructor.
Qed.

#[local] Hint Resolve slots_ok_app slots_ok_pop : core.

Lemma slots_ok_outside c p :
  slots_ok (stack p) -> slots_ok (stack (fst (feed_char_outside c p))).
Proof.
  destruct p as [st sk ty pl psp sd]. simp_rec. intros Hs.
  unfold feed_char_outside, _handle_brackets, _handle_inside_object_value,
    assert.
  crush_m; eauto 6.
Qed.

Lemma slots_ok_feed_char c p :
  shape p -> slots_ok (stack p) -> slots_ok (stack (fst (feed_char c p))).
Proof.
  intros Hsh Hs. rewrite feed_char_in_state.
  destruct p as [st sk ty pl psp sd]. unfold shape in Hsh. simp_rec.
  destruct st.
  - now apply slots_ok_outside.
  - destruct Hsh as [[rest ->] _]. unfold feed_char_key, assert. cbn [app].
    crush_m; eauto.
    match goal with H : json_loads _ = Return _ |- _ =>
      apply json_loads_quoted in H end.
    auto.
  - unfold feed_char_atomic_value. crush_m; eauto.
    rewrite feed_char_in_state. simp_rec.
    apply slots_ok_outside. simp_rec. eauto.
  - unfold feed_char_string_value, StreamJsonStringParser.feed_char.
    destruct psp; crush_m; eauto.
  - assumption.
Qed.

(** Every index on the stack of a caller's parser is 0: an index is
    pushed as 0 and nothing increments it. *)
Lemma reachable_indices_zero p :
  reachable p -> forall z, In (PyInt z) (stack p) -> z = 0%Z.
Proof.
  intros Hr. assert (Hs : slots_ok (stack p)).
  { induction Hr.
    - constructor.
    - apply slots_ok_feed_char; [now apply reachable_shape|assumption].
    - destruct p as [st sk ty pl psp sd]. unfold __next__.
      crush_m; assumption. }
  intros z Hz. unfold slots_ok in Hs. rewrite Forall_forall in Hs.
  destruct (Hs _ Hz) as [H|H]; [discriminate|congruence].
Qed.

(** C1 (the code breaks the claim): the index of an array element is
    pushed as 0 for every element and never incremented.  Fed one
    character at a time, the document of the claim yields the events
    below: the second element of the array is reported at [pref.0], not
    at [pref.1]. *)
Theorem C1_array_index_stays_zero :
  let doc := lit "{'name':'x','age':1,'pref':['a','b']}" in
  let (p, r) := feed_chunks (map (fun c => [c]) doc) __init__ in
  r = Return tt
  /\ toyield p
     = [ValuePiece (lit "name") (lit "x"); Value (lit "name") (PyStr (lit "x"));
        Value (lit "age") (PyInt 1);
        ValuePiece (lit "pref.0") (lit "a");
        Value (lit "pref.0") (PyStr (lit "a"));
        ValuePiece (lit "pref.0") (lit "b");
        Value (lit "pref.0") (PyStr (lit "b"))]
  /\ values_of (toyield p)
     = [(lit "name", PyStr (lit "x")); (lit "age", PyInt 1);
        (lit "pref.0", PyStr (lit "a")); (lit "pref.0", PyStr (lit "b"))].
Proof. vm_compute. auto. Qed.

(** C2 (the code breaks the claim): on the document [{"a":[1,{"b":2}]}]
    the first element is reported at [a.0]; the object that follows
    gets no index slot, so when the scalar 2 ends the path computation
    meets the marker of that object where it asserts an integer, and
    [feed_string] raises [AssertionError].  No event is queued for the
    scalar 2. *)
Theorem C2_nested_path_assertion :
  let (p, r) := feed_string (lit "{'a':[1,{'b':2}]}") __init__ in
  r = Raise AssertionError
  /\ state p = ATOMIC_VALUE
  /\ stack p = [PyStr (lit "{"); PyStr (lit "a"); PyStr (lit "[");
                PyStr (lit "{"); PyStr (lit "b")]
  /\ payload p = lit "2"
  /\ toyield p = [Value (lit "a.0") (PyInt 1)].
Proof. vm_compute. auto 6. Qed.

(** Closing a container whose marker lies on a slot [v]: the marker and
    the slot are popped, and the slot must not be a marker. *)
Lemma close_bracket_on_slot c o p sk v :
  PAIRS c = Some o -> state p = OUTSIDE ->
  stack p = sk ++ [v; PyStr o] ->
  feed_char c p
  = (with_stack sk p,
     if py_eq_str v [ch "{"] || py_eq_str v [ch "["]
     then Raise AssertionError else Return tt).
Proof.
  intros Hc Hst Hsk. rewrite feed_char_in_state, Hst.
  assert (Hin : c = ch "}" \/ c = ch "]").
  { unfold PAIRS in Hc. destruct (c =? ch "}") eqn:E1.
    - apply N.eqb_eq in E1. auto.
    - destruct (c =? ch "]") eqn:E2; [|discriminate].
      apply N.eqb_eq in E2. auto. }
  destruct p as [st s0 ty pl psp sd]. simp_rec. subst st s0.
  unfold feed_char_outside, _handle_brackets. run_m. simp_rec.
  replace (str_in c [ch "{"; ch "}"; ch "["; ch "]"]) with true
    by (destruct Hin as [-> | ->]; reflexivity).
  replace (str_in c [ch "{"; ch "["]) with false
    by (destruct Hin as [-> | ->]; reflexivity).
  replace (str_in c [ch "}"; ch "]"]) with true
    by (destruct Hin as [-> | ->]; reflexivity).
  cbv iota. rewrite Hc.
  change (sk ++ [v; PyStr o]) with (sk ++ [v] ++ [PyStr o]).
  rewrite app_assoc. simp_rec.
  rewrite match_app_unit. simp_rec. rewrite list_pop_app. simp_rec.
  assert (Hoo : py_eq_str (PyStr o) o = true).
  { destruct Hin as [-> | ->]; injection Hc as <-; reflexivity. }
  rewrite Hoo. cbn [negb]. simp_rec.
  rewrite match_app_unit. simp_rec. rewrite list_pop_app. simp_rec.
  destruct (py_eq_str v [ch "{"] || py_eq_str v [ch "["]); reflexivity.
Qed.

(** A container opened directly inside an array has no index slot: when
    it is closed again, the marker of the array is popped in its place
    and the assertion of [_handle_brackets] fails. *)
Lemma container_inside_array_asserts p sk o c :
  PAIRS c = Some [o] ->
  state p = OUTSIDE -> stack p = sk ++ [PyStr [ch "["]] ->
  feed_string [o; c] p = (with_stack sk p, Raise AssertionError).
Proof.
  intros Hc Hst Hsk.
  assert (Ho : o = ch "{" \/ o = ch "[").
  { unfold PAIRS in Hc. destruct (c =? ch "}"); [injection Hc; auto|].
    destruct (c =? ch "]"); [injection Hc; auto|discriminate]. }
  cbn [feed_string]. unfold bind at 1.
  assert (H1 : feed_char o p
               = (with_stack (sk ++ [PyStr [ch "["]; PyStr [o]]) p, Return tt)).
  { rewrite feed_char_in_state, Hst.
    destruct p as [st s0 ty pl psp sd]. simp_rec. subst st s0.
    destruct Ho as [-> | ->]; cbv -[app]; now rewrite <- app_assoc. }
  rewrite H1. unfold bind.
  rewrite (close_bracket_on_slot c [o] _ sk (PyStr [ch "["])); trivial.
Qed.

(** C4 (the code breaks the claim): the slot assertions fail on
    well-formed documents.  A container closed directly inside an array
    finds the marker of the array beneath it ([[[]]], [[{}]]); a scalar
    inside a container inside an array makes the path computation find a
    marker after [ARRAY_OPEN] ([[[1]]]); and a key that is itself the
    text of a marker is taken for one ([{"[":[]}]). *)
Theorem C4_slot_assertions_fire :
  snd (feed_string (lit "[[]]") __init__) = Raise AssertionError
  /\ snd (feed_string (lit "[{}]") __init__) = Raise AssertionError
  /\ snd (feed_string (lit "[[1]]") __init__) = Raise AssertionError
  /\ snd (feed_string (lit "{'[':[]}") __init__) = Raise AssertionError.
Proof. vm_compute. auto. Qed.

(** ** Completion *)

(** [is_current_data_finished] is false on a new parser and while the
    stack holds anything. *)
Lemma not_finished_while_open p :
  is_current_data_finished __init__ = false
  /\ (stack p <> [] -> is_current_data_finished p = false).
Proof.
  split; [reflexivity|]. unfold is_current_data_finished.
  destruct (stack p); [congruence|]. intros _. apply andb_false_r.
Qed.

(** In state [OUTSIDE] the flag [started] is set by exactly the
    characters that are neither brackets nor blanks. *)
Lemma outside_started c p :
  started (fst (feed_char_outside c p))
  = started p
    || negb (str_in c [ch "{"; ch "}"; ch "["; ch "]"] || is_whitespace c).
Proof.
  destruct p as [st sk ty pl psp sd].
  unfold feed_char_outside, _handle_brackets, _handle_inside_object_value,
    assert.
  crush_m; cbn; rewrite ?orb_true_r, ?orb_false_r; reflexivity.
Qed.

(** C5 (the code breaks the claim): [started] is set only by a character
    that is neither a bracket nor blank, because brackets return before
    the assignment.  After the complete documents [{}] and [[]] the
    stack has been non-empty and is empty again, yet
    [is_current_data_finished] is false. *)
Theorem C5_empty_containers_never_finished :
  (let (p, r) := feed_string (lit "{}") __init__ in
   r = Return tt /\ stack p = [] /\ started p = false
   /\ is_current_data_finished p = false)
  /\ (let (p, r) := feed_string (lit "[]") __init__ in
      r = Return tt /\ stack p = [] /\ started p = false
      /\ is_current_data_finished p = false).
Proof. vm_compute. auto 6. Qed.

(** ** Chunking *)

Lemma feed_string_app a b p :
  (feed_string a ;; feed_string b)%py p = feed_string (a ++ b) p.
Proof.
  revert p. induction a as [|c a IH]; intros p; [reflexivity|].
  cbn [feed_string app]. specialize (IH (fst (feed_char c p))).
  unfold bind in *.
  destruct (feed_char c p) as [p1 [[]|e]]; [apply IH|reflexivity].
Qed.

Lemma feed_chunks_concat chunks p :
  feed_chunks chunks p = feed_string (concat chunks) p.
Proof.
  revert p. induction chunks as [|s chunks IH]; intros p; [reflexivity|].
  cbn [feed_chunks concat]. rewrite <- feed_string_app.
  unfold bind.
  destruct (feed_string s p) as [p1 [[]|e]]; [apply IH|reflexivity].
Qed.

(** Nothing in the engine reads the queue: events ahead in the queue
    stay ahead and change nothing else. *)
Lemma outside_queued c x p :
  feed_char_outside c (queued x p) =
  let (p', r) := feed_char_outside c p in (queued x p', r).
Proof.
  destruct p as [st sk ty pl psp sd]. unfold queued.
  unfold feed_char_outside, _handle_brackets, _handle_inside_object_value,
    assert.
  crush_m; queued_leaves.
Qed.

Lemma feed_char_queued c x p :
  feed_char c (queued x p) = let (p', r) := feed_char c p in (queued x p', r).
Proof.
  rewrite !feed_char_in_state.
  destruct p as [st sk ty pl psp sd]. unfold queued at 1 2. simp_rec.
  destruct st; try unfold queued at 1; simp_rec.
  - apply (outside_queued c x (mk OUTSIDE sk ty pl psp sd)).
  - unfold feed_char_key, assert, queued. crush_m; queued_leaves.
  - unfold feed_char_atomic_value, queued. crush_m; try queued_leaves.
    rewrite !feed_char_in_state. simp_rec. rewrite <- app_assoc.
    match goal with
    | |- feed_char_outside _ (mk _ ?l (_ ++ ?q) _ _ _) = _ =>
        apply (outside_queued c x (mk OUTSIDE l q [] psp sd))
    end.
  - unfold feed_char_string_value, StreamJsonStringParser.feed_char, queued.
    destruct psp; crush_m; queued_leaves.
  - reflexivity.
Qed.

Lemma feed_string_queued s x p :
  feed_string s (queued x p) =
  let (p', r) := feed_string s p in (queued x p', r).
Proof.
  revert p. induction s as [|c s IH]; intros p; [reflexivity|].
  cbn [feed_string]. unfold bind. rewrite feed_char_queued.
  destruct (feed_char c p) as [p1 [[]|e]]; [apply IH|reflexivity].
Qed.

Lemma queued_queued x y p : queued x (queued y p) = queued (x ++ y) p.
Proof. unfold queued. simp_rec. now rewrite app_assoc. Qed.

Lemma queued_nil p : queued [] p = p.
Proof. now destruct p. Qed.

Lemma drain_spec n p :
  (length (toyield p) < n)%nat -> drain n p = (with_toyield [] p, toyield p).
Proof.
  revert p. induction n as [|n IH]; intros p Hn; [lia|].
  destruct p as [st sk ty pl psp sd]. cbn [drain]. unfold __next__.
  run_m. simp_rec. destruct ty as [|e ty]; [reflexivity|].
  rewrite IH by (cbn in *; lia). reflexivity.
Qed.

(** Pulling until [StopIteration] returns the queue in order and leaves
    it empty. *)
Lemma drain_all_spec p : drain_all p = (with_toyield [] p, toyield p).
Proof. apply drain_spec. lia. Qed.

Lemma feed_chunks_draining_spec chunks p :
  let '(p', es, r) := feed_chunks_draining chunks p in
  feed_string (concat chunks) p = (queued es p', r).
Proof.
  rewrite <- feed_chunks_concat. revert p.
  induction chunks as [|s chunks IH]; intros p.
  - cbn. now rewrite queued_nil.
  - cbn [feed_chunks_draining feed_chunks]. unfold bind.
    destruct (feed_string s p) as [p1 [[]|e]].
    2:{ now rewrite queued_nil. }
    rewrite drain_all_spec. specialize (IH (with_toyield [] p1)).
    destruct (feed_chunks_draining chunks (with_toyield [] p1))
      as [[p3 es'] r].
    replace p1 with (queued (toyield p1) (with_toyield [] p1)) at 1
      by (destruct p1; unfold queued; simp_rec; now rewrite app_nil_r).
    rewrite !feed_chunks_concat in *. rewrite feed_string_queued, IH.
    now rewrite queued_queued.
Qed.

(** C9: [feed_string a] followed by [feed_string b] is [feed_string] of
    [a + b]: same parser, same queue, same outcome, an exception in [a]
    ending both.  Hence any chunking of a text, one-character chunks
    included, behaves as the text fed in one piece; and when the caller
    pulls every queued event after each chunk, the events pulled,
    followed by those still queued, are the queue of the one-piece
    run. *)
Theorem C9_chunking_invariance (p : t) (a b : pystr) (chunks : list pystr) :
  (feed_string a ;; feed_string b)%py p = feed_string (a ++ b) p
  /\ feed_chunks chunks p = feed_string (concat chunks) p
  /\ feed_chunks (map (fun c => [c]) (concat chunks)) p = feed_chunks chunks p
  /\ (let '(p', es, r) := feed_chunks_draining chunks p in
      feed_string (concat chunks) p = (queued es p', r)).
Proof.
  repeat split.
  - apply feed_string_app.
  - apply feed_chunks_concat.
  - rewrite !feed_chunks_concat. f_equal.
    induction (concat chunks) as [|c s IH]; cbn; congruence.
  - apply feed_chunks_draining_spec.
Qed.

(** ** String values *)

(** C3 (the code breaks the claim): the pieces of a string do not
    always spell its final value.  For the surrogate pair
    [\ud83d\ude00] the decoder emits one piece per escape, the two
    surrogates 0xD83D and 0xDE00, while the whole-string decode joins
    them into the single code point 0x1F600; the same happens fed one
    character at a time or split inside an escape.  For the escape
    [\b] the piece is the letter [b] and the final value is the
    backspace, code point 8. *)
Theorem C3_pieces_differ_from_value :
  let doc := lit "{'k':'\ud83d\ude00'}" in
  let (p, r) := feed_string doc __init__ in
  r = Return tt
  /\ toyield p = [ValuePiece (lit "k") [55357]; ValuePiece (lit "k") [56832];
                  Value (lit "k") (PyStr [128512])]
  /\ pieces_at (lit "k") (toyield p) = [55357; 56832]
  /\ feed_chunks (map (fun c => [c]) doc) __init__ = (p, r)
  /\ feed_chunks [lit "{'k':'\ud8"; lit "3d\ude00'}"] __init__ = (p, r)
  /\ toyield (fst (feed_string (lit "{'k':'\b'}") __init__))
     = [ValuePiece (lit "k") (lit "b"); Value (lit "k") (PyStr [8])].
Proof. vm_compute. auto 7. Qed.

Lemma quote_pending_feed_char c q :
  quote_pending q ->
  exists q',
    feed_char c q = (q', Raise JSONDecodeError)
    /\ quote_pending q' /\ toyield q' = toyield q /\ stack q' = stack q.
Proof.
  intros (Hst & [segs Hsegs] & [r Hr] & Hj).
  rewrite feed_char_in_state, Hst, feed_char_string_value_eq.
  rewrite Hr, Hsegs, (Hj [c]). cbv zeta.
  cbn [StreamJsonStringParser.remains app].
  change (StreamJsonStringParser.get_escaped_char _)
    with (StreamJsonStringParser.mk (DQUOTE :: r ++ [c]),
          (Return (RBool true) : outcome resolved)).
  cbv iota. eexists. split; [reflexivity|].
  unfold quote_pending. simp_rec. repeat split; eauto.
  intros suffix. rewrite <- app_assoc. apply Hj.
Qed.

Lemma quote_pending_forever cs q :
  quote_pending q ->
  let (q', rs) := feed_chars_catching cs q in
  quote_pending q'
  /\ Forall (fun r => r = Raise JSONDecodeError) rs
  /\ toyield q' = toyield q.
Proof.
  revert q. induction cs as [|c cs IH]; intros q Hq; [cbn; auto|].
  cbn [feed_chars_catching].
  destruct (quote_pending_feed_char c q Hq) as (q1 & -> & Hq1 & Hty & _).
  specialize (IH q1 Hq1). destruct (feed_chars_catching cs q1) as [q2 rs].
  destruct IH as (H2 & Hrs & Hty2).
  split; [assumption|]. split; [now constructor|congruence].
Qed.

(** C10: for the string values [\q] and [\x41], which the escape
    decoder accepts character by character, the closing quote makes the
    final [json.loads] raise; the state is still [STRING_VALUE], not
    [INVALID], no [Value] is queued, and every later character goes to
    [feed_char_string_value] (where the decode raises again). *)
Theorem C10_decode_error_keeps_string_state :
  decode_error_keeps_string_state (lit "{'k':'\q")
  /\ decode_error_keeps_string_state (lit "{'k':'\x41").
Proof.
  split.
  all: unfold decode_error_keeps_string_state.
  all: match goal with
       | |- context [feed_string ?s ?p] =>
           let v := eval vm_compute in (feed_string s p) in
           change (feed_string s p) with v
       end; cbv iota.
  all: match goal with
       | |- context [feed_char ?c ?p] =>
           let v := eval vm_compute in (feed_char c p) in
           change (feed_char c p) with v
       end; cbv iota.
  all: repeat (split; [reflexivity|]).
  all: intros cs.
  all: match goal with
       | |- context [feed_chars_catching ?l ?p] =>
           assert (Hq : quote_pending p)
             by (split; [reflexivity|];
                 split; [eexists; reflexivity|];
                 split; [eexists; reflexivity|];
                 intros suffix; reflexivity);
           pose proof (quote_pending_forever l p Hq) as H;
           destruct (feed_chars_catching l p) as [p2 rs]
       end.
  all: destruct H as ((Hst & _) & Hrs & Hty).
  all: repeat split; trivial.
  all: intros c; rewrite feed_char_in_state, Hst; reflexivity.
Qed.

(** ** Failure *)

Section Invalid.

Variable p : t.
Hypothesis p_invalid : state p = INVALID.

Lemma invalid_feed_char c :
  feed_char c p = (p, Raise (RuntimeError InvalidParserState)).
Proof. rewrite feed_char_in_state. now rewrite p_invalid. Qed.

End Invalid.

(** Once [INVALID], a parser stays so whatever is called on it: every
    [feed_char] raises, and the events pulled, followed by those still
    queued, are the queue it had. *)
Lemma invalid_run_calls acts p :
  state p = INVALID ->
  let (p', rs) := run_calls acts p in
  state p' = INVALID
  /\ (forall r, In (Fed r) rs -> r = Raise (RuntimeError InvalidParserState))
  /\ pulled_events rs ++ toyield p' = toyield p.
Proof.
  revert p. induction acts as [|[c|] acts IH]; intros p Hp.
  - cbn. repeat split; trivial. intros r [].
  - cbn [run_calls]. rewrite invalid_feed_char by assumption.
    specialize (IH p Hp). destruct (run_calls acts p) as [p2 rs].
    destruct IH as (Hst & Hfed & Hq). repeat split; trivial.
    intros r [[= <-]|Hin]; auto.
  - cbn [run_calls]. unfold __next__. run_m.
    destruct p as [st sk ty pl psp sd]. simp_rec. subst st.
    destruct ty as [|e ty].
    + specialize (IH (mk INVALID sk [] pl psp sd) eq_refl).
      destruct (run_calls acts _) as [p2 rs].
      destruct IH as (Hst & Hfed & Hq). repeat split; trivial.
      intros r [Hin|Hin]; [discriminate|auto].
    + specialize (IH (mk INVALID sk ty pl psp sd) eq_refl).
      destruct (run_calls acts _) as [p2 rs].
      destruct IH as (Hst & Hfed & Hq). simp_rec. repeat split; trivial.
      * intros r [Hin|Hin]; [discriminate|auto].
      * cbn. now rewrite Hq.
Qed.

(** C7: on a parser a caller can hold, with an empty stack and not
    already failed, feeding the closing square bracket raises the
    [RuntimeError] for an empty stack and sets the state to [INVALID].
    The queue is untouched and can be pulled in order.  From then on,
    whatever the caller calls, every [feed_char] raises, the state stays
    [INVALID], and the events pulled followed by those still queued are
    exactly the events queued before the failure. *)
Theorem C7_unmatched_close_bracket p :
  reachable p -> stack p = [] -> state p <> INVALID ->
  exists p1,
    feed_char (ch "]") p = (p1, Raise (RuntimeError StackIsEmpty))
    /\ state p1 = INVALID
    /\ toyield p1 = toyield p
    /\ snd (drain_all p1) = toyield p
    /\ forall acts,
        let (p2, rs) := run_calls acts p1 in
        state p2 = INVALID
        /\ (forall r, In (Fed r) rs ->
                      r = Raise (RuntimeError InvalidParserState))
        /\ pulled_events rs ++ toyield p2 = toyield p.
Proof.
  intros Hr Hs Hst.
  destruct (reachable_empty_stack p Hr Hs) as [Ho|Hi]; [|contradiction].
  exists (with_state INVALID p).
  assert (Hfeed : feed_char (ch "]") p
                  = (with_state INVALID p, Raise (RuntimeError StackIsEmpty))).
  { rewrite feed_char_in_state, Ho.
    destruct p as [st sk ty pl psp sd]. simp_rec. subst sk. reflexivity. }
  repeat split; trivial.
  - now rewrite drain_all_spec.
  - intros acts.
    apply (invalid_run_calls acts (with_state INVALID p)). reflexivity.
Qed.

Lemma C7_unmatched_close_bracket_witness :
  exists p1,
    feed_char (ch "]") (fst (feed_string (lit "[1]") __init__))
    = (p1, Raise (RuntimeError StackIsEmpty))
    /\ state p1 = INVALID
    /\ toyield p1 = [Value (lit "0") (PyInt 1)].
Proof.
  destruct (C7_unmatched_close_bracket (fst (feed_string (lit "[1]") __init__)))
    as (p1 & H1 & H2 & H3 & _).
  - apply reachable_feed_string, reach_init.
  - reflexivity.
  - discriminate.
  - exists p1. auto.
Defined.

(** * Further properties *)
(** ** More on the escape decoder *)



(** X2: [get_escaped_char] raises exactly on a buffer that starts with a
    [U] escape whose eight hex digits exceed 0x10FFFF; the exception is
    then [UnicodeDecodeError]. *)
Theorem X2_get_escaped_char_raises_iff (sp : StreamJsonStringParser.t) e :
  snd (StreamJsonStringParser.get_escaped_char sp) = Raise e
  <-> (e = UnicodeDecodeError
       /\ exists digits rest,
           StreamJsonStringParser.remains sp
           = BACKSLASH :: ch "U" :: digits ++ rest
           /\ length digits = 8%nat /\ forallb is_hex digits = true
           /\ 1114111 < hex_value digits).
Proof.
  split; [apply get_escaped_char_raise|].
  intros (-> & digits & rest & Hrem & Hlen & Hhex & Hbig).
  destruct sp as [rem]. cbn in Hrem. subst rem.
  now rewrite out_of_range_escape_raises.
Qed.



(** ** More on the engine *)

Lemma outside_keeps_queue c p :
  toyield (fst (feed_char_outside c p)) = toyield p
  /\ (started p = true -> started (fst (feed_char_outside c p)) = true).
Proof.
  destruct p as [st sk ty pl psp sd].
  unfold feed_char_outside, _handle_brackets, _handle_inside_object_value,
    assert.
  crush_m; auto.
Qed.

(** X4: [feed_char] only ever appends to the queue, and at most one
    event per call; it appends nothing unless the parser is inside an
    atomic or a string value; and it never clears [started]. *)
Theorem X4_feed_char_appends_at_most_one c p :
  exists es,
    toyield (fst (feed_char c p)) = toyield p ++ es
    /\ (length es <= 1)%nat
    /\ (es <> [] -> state p = ATOMIC_VALUE \/ state p = STRING_VALUE)
    /\ (started p = true -> started (fst (feed_char c p)) = true).
Proof.
  rewrite feed_char_in_state. destruct (state p) eqn:Hst.
  - exists []. destruct (outside_keeps_queue c p) as [Hq Hs].
    rewrite Hq, app_nil_r. repeat split; auto. congruence.
  - exists []. destruct p as [st sk ty pl psp sd]. simp_rec.
    unfold feed_char_key, assert.
    crush_m; rewrite ?app_nil_r; repeat split; auto; congruence.
  - destruct p as [st sk ty pl psp sd]. simp_rec.
    unfold feed_char_atomic_value.
    crush_m;
      try solve [exists []; rewrite ?app_nil_r; repeat split; auto; congruence];
      try solve [eexists [_]; repeat split; cbn; auto].
    rewrite feed_char_in_state. simp_rec.
    match goal with
    | |- context [feed_char_outside c ?q] =>
        destruct (outside_keeps_queue c q) as [Hq Hs]
    end.
    simp_rec. rewrite Hq. eexists [_]. repeat split; cbn; auto.
  - destruct p as [st sk ty pl psp sd]. simp_rec.
    unfold feed_char_string_value, StreamJsonStringParser.feed_char.
    destruct psp; crush_m;
      try solve [exists []; rewrite ?app_nil_r; repeat split; auto; congruence];
      try solve [eexists [_]; repeat split; cbn; auto].
  - exists []. rewrite app_nil_r. repeat split; auto. congruence.
Qed.

Lemma scan_number_raise s e rest :
  scan_number s = Some (Raise e, rest) -> e = ValueError.
Proof.
  unfold scan_number. repeat (break_inner; try discriminate).
  all: now intros [= <- _].
Qed.

(** The exceptions of the library calls. *)
Lemma json_loads_raise text e :
  json_loads text = Raise e ->
  e = JSONDecodeError \/ e = ValueError \/ e = NotModelled.
Proof.
  unfold json_loads.
  assert (Hfin : forall v r, json_finish v r = Raise e ->
                             e = JSONDecodeError \/ e = ValueError
                             \/ e = NotModelled).
  { intros v r H. left. now apply json_finish_raise in H. }
  destruct (skip_ws text) as [|c t]; [intros [= <-]; auto|].
  destruct (c =? DQUOTE).
  { destruct (scanstring t) as [[v r]|]; [apply Hfin|intros [= <-]; auto]. }
  destruct ((c =? ch "{") || (c =? ch "[")); [intros [= <-]; auto|].
  repeat match goal with
         | |- (if ?b then _ else _) = _ -> _ => destruct b; [apply Hfin|]
         end.
  destruct (scan_number _) as [[[v|e'] r]|] eqn:Hn;
    [apply Hfin| |intros [= <-]; auto].
  intros [= <-]. apply scan_number_raise in Hn. auto.
Qed.

Ltac not_runtime :=
  match goal with
  | H : index_key_segments _ = Raise (RuntimeError _) |- _ =>
      apply index_key_segments_raise in H as [H | H]; discriminate H
  | H : json_loads _ = Raise (RuntimeError _) |- _ =>
      apply json_loads_raise in H as [H | [H | H]]; discriminate H
  | H : StreamJsonStringParser.get_escaped_char _ = (_, Raise (RuntimeError _))
    |- _ => apply get_escaped_char_raise_eq in H; discriminate H
  end.

Lemma outside_runtime_iff c p :
  state p = OUTSIDE ->
  (state (fst (feed_char_outside c p)) = INVALID
   <-> exists e, snd (feed_char_outside c p) = Raise (RuntimeError e)).
Proof.
  destruct p as [st sk ty pl psp sd]. simp_rec. intros ->.
  unfold feed_char_outside, _handle_brackets, _handle_inside_object_value,
    assert.
  crush_m.
  all: split;
    [ intros H; try discriminate H; eauto
    | intros [e0 H]; try discriminate H; reflexivity ].
Qed.

(** X5: a call of [feed_char] leaves the parser [INVALID] exactly when
    it raises [RuntimeError]: every other exception (a failed assertion,
    a decode error) leaves the parser in a state that accepts further
    input. *)
Theorem X5_invalid_iff_runtime_error c p :
  state (fst (feed_char c p)) = INVALID
  <-> exists e, snd (feed_char c p) = Raise (RuntimeError e).
Proof.
  rewrite feed_char_in_state. destruct (state p) eqn:Hst.
  - now apply outside_runtime_iff.
  - destruct p as [st sk ty pl psp sd]. simp_rec. subst st.
    unfold feed_char_key, assert. crush_m.
    all: split; [discriminate|intros [e0 H]; try discriminate H].
    all: injection H as ->; not_runtime.
  - destruct p as [st sk ty pl psp sd]. simp_rec. subst st.
    unfold feed_char_atomic_value. crush_m.
    all: try (split; [discriminate|intros [e0 H]; try discriminate H];
              injection H as ->; not_runtime).
    rewrite feed_char_in_state. simp_rec. now apply outside_runtime_iff.
  - destruct p as [st sk ty pl psp sd]. simp_rec. subst st.
    unfold feed_char_string_value, StreamJsonStringParser.feed_char.
    destruct psp; crush_m.
    all: split; [discriminate|intros [e0 H]; try discriminate H].
    all: injection H as ->; not_runtime.
  - cbn. split; eauto.
Qed.

(** X6: at the top level only a container may start.  With an empty
    stack, every character that is neither a bracket nor blank fails
    with [RuntimeError]: the parser becomes [INVALID] and [started] is
    set; in particular a document that is a bare scalar is rejected at
    its first character. *)
Theorem X6_top_level_must_be_container c p :
  state p = OUTSIDE -> stack p = [] ->
  str_in c [ch "{"; ch "}"; ch "["; ch "]"] = false ->
  is_whitespace c = false ->
  feed_char c p
  = (with_state INVALID (with_started true p),
     Raise (RuntimeError (CannotRecognize c))).
Proof.
  intros Hst Hsk Hb Hw. rewrite feed_char_in_state, Hst.
  destruct p as [st sk ty pl psp sd]. simp_rec. subst st sk.
  unfold feed_char_outside. run_m. simp_rec. rewrite Hb, Hw.
  cbn [stack_top list_pop py_eq_str isinstance_str length Nat.leb
       orb andb].
  rewrite !andb_false_r. cbn [andb]. reflexivity.
Qed.

Lemma X6_top_level_must_be_container_witness :
  feed_string (lit "1") __init__
  = (with_state INVALID (with_started true __init__),
     Raise (RuntimeError (CannotRecognize (ch "1"))))
  /\ is_current_data_finished
       (fst (feed_string (lit "1") __init__)) = true.
Proof.
  assert (H := X6_top_level_must_be_container (ch "1") __init__
                 eq_refl eq_refl eq_refl eq_refl).
  cbn [feed_string lit list_ascii_of_string map]. unfold bind.
  change (if Ascii.eqb "1" "'" then DQUOTE else N_of_ascii "1") with (ch "1").
  rewrite H. split; reflexivity.
Defined.

(** X7: closing a container.  With [o] the opening bracket of the
    closing bracket [c]: when the top of the stack is not [o], the top
    is popped all the same, the parser becomes [INVALID] and the
    mismatch is raised; when it is [o] and nothing lies beneath, the
    stack becomes empty; and when a slot [u] lies beneath, it is popped
    too, the call failing its assertion when [u] is itself the text of a
    marker. *)
Theorem X7_closing_bracket c o p sk v :
  PAIRS c = Some o -> state p = OUTSIDE -> stack p = sk ++ [v] ->
  (py_eq_str v o = false ->
   feed_char c p
   = (with_state INVALID (with_stack sk p),
      Raise (RuntimeError (BracketMismatch v o))))
  /\ (py_eq_str v o = true -> sk = [] ->
      feed_char c p = (with_stack [] p, Return tt))
  /\ (forall sk' u,
         py_eq_str v o = true -> sk = sk' ++ [u] ->
         feed_char c p
         = (with_stack sk' p,
            if py_eq_str u [ch "{"] || py_eq_str u [ch "["]
            then Raise AssertionError else Return tt)).
Proof.
  intros Hc Hst Hsk. rewrite feed_char_in_state, Hst.
  assert (Hin : c = ch "}" \/ c = ch "]").
  { unfold PAIRS in Hc. destruct (c =? ch "}") eqn:E1.
    - apply N.eqb_eq in E1. auto.
    - destruct (c =? ch "]") eqn:E2; [|discriminate].
      apply N.eqb_eq in E2. auto. }
  destruct p as [st s0 ty pl psp sd]. simp_rec. subst st s0.
  unfold feed_char_outside, _handle_brackets. run_m. simp_rec.
  replace (str_in c [ch "{"; ch "}"; ch "["; ch "]"]) with true
    by (destruct Hin as [-> | ->]; reflexivity).
  replace (str_in c [ch "{"; ch "["]) with false
    by (destruct Hin as [-> | ->]; reflexivity).
  replace (str_in c [ch "}"; ch "]"]) with true
    by (destruct Hin as [-> | ->]; reflexivity).
  cbv iota. rewrite Hc. simp_rec. rewrite match_app_unit. simp_rec.
  rewrite list_pop_app. simp_rec.
  split; [|split].
  - intros ->. reflexivity.
  - intros -> ->. reflexivity.
  - intros sk' u -> ->. cbn [negb]. simp_rec.
    rewrite match_app_unit. simp_rec. rewrite list_pop_app. simp_rec.
    destruct (py_eq_str u [ch "{"] || py_eq_str u [ch "["]); reflexivity.
Qed.

Lemma X7_closing_bracket_witness :
  feed_char (ch "]") (fst (feed_string (lit "{'a'") __init__))
  = (with_state INVALID
       (with_stack [PyStr (lit "{")] (fst (feed_string (lit "{'a'") __init__))),
     Raise (RuntimeError (BracketMismatch (PyStr (lit "a")) (lit "["))))
  /\ feed_char (ch "}") (fst (feed_string (lit "{'a':{") __init__))
     = (with_stack [PyStr (lit "{")]
          (fst (feed_string (lit "{'a':{") __init__)), Return tt).
Proof.
  split.
  - apply (proj1 (X7_closing_bracket (ch "]") (lit "[")
                    (fst (feed_string (lit "{'a'") __init__))
                    [PyStr (lit "{")] (PyStr (lit "a"))
                    eq_refl eq_refl eq_refl)).
    reflexivity.
  - apply (proj2 (proj2 (X7_closing_bracket (ch "}") (lit "{")
                    (fst (feed_string (lit "{'a':{") __init__))
                    [PyStr (lit "{"); PyStr (lit "a")] (PyStr (lit "{"))
                    eq_refl eq_refl eq_refl))
                 [PyStr (lit "{")] (PyStr (lit "a"))); reflexivity.
Defined.

Lemma outside_unrecognised c p :
  str_in c [ch "{"; ch "}"; ch "["; ch "]"] = false ->
  is_whitespace c = false ->
  str_in c [ch ","; ch ":"; DQUOTE] = false ->
  is_atomic_value_char c = false ->
  exists e,
    feed_char_outside c p
    = (with_state INVALID (with_started true p), Raise (RuntimeError e)).
Proof.
  intros Hb Hw Hsep Ha.
  apply str_in_not_In in Hsep.
  assert (Hcomma : (c =? ch ",") = false)
    by (apply N.eqb_neq; intros ->; apply Hsep; cbn; auto).
  assert (Hcolon : (c =? ch ":") = false)
    by (apply N.eqb_neq; intros ->; apply Hsep; cbn; auto).
  assert (Hq : (c =? DQUOTE) = false)
    by (apply N.eqb_neq; intros ->; apply Hsep; cbn; auto).
  destruct p as [st sk ty pl psp sd].
  unfold feed_char_outside, _handle_inside_object_value. run_m. simp_rec.
  rewrite Hb, Hw, Hcomma, Hcolon, Hq, Ha. cbn [andb].
  rewrite !andb_false_r.
  repeat (break_inner; simp_rec); eauto.
Qed.

(** X8: in state [OUTSIDE] a character that is no bracket, blank,
    comma, colon, double quote or atomic-value character is never
    accepted, whatever the stack holds: [feed_char] raises
    [RuntimeError], the parser becomes [INVALID], [started] is set and
    nothing else changes.  The minus sign is such a character, so a
    negative number cannot start a value. *)
Theorem X8_unrecognised_character_fails c p :
  state p = OUTSIDE ->
  str_in c [ch "{"; ch "}"; ch "["; ch "]"] = false ->
  is_whitespace c = false ->
  str_in c [ch ","; ch ":"; DQUOTE] = false ->
  is_atomic_value_char c = false ->
  exists e,
    feed_char c p
    = (with_state INVALID (with_started true p), Raise (RuntimeError e)).
Proof.
  intros Hst Hb Hw Hsep Ha. rewrite feed_char_in_state, Hst.
  now apply outside_unrecognised.
Qed.

Lemma X8_unrecognised_character_fails_witness :
  exists e,
    feed_char (ch "-") (fst (feed_string (lit "{'a':") __init__))
    = (with_state INVALID
         (with_started true (fst (feed_string (lit "{'a':") __init__))),
       Raise (RuntimeError e)).
Proof.
  apply X8_unrecognised_character_fails; reflexivity.
Defined.

(** ** Atomic values *)






(** X10: an atomic value that cannot be completed leaves the parser
    stuck.  When the path computation fails, every later [feed_char]
    raises the same exception and changes nothing at all; when the
    payload does not decode, the same holds for every character that
    would end the value. *)
Theorem X10_failed_atomic_value_is_stuck p e :
  state p = ATOMIC_VALUE ->
  (index_key_segments (stack p) = Raise e ->
   forall cs, feed_chars_catching cs p = (p, map (fun _ => Raise e) cs))
  /\ (forall segs,
         index_key_segments (stack p) = Return segs ->
         json_loads (payload p) = Raise e ->
         forall cs,
           forallb (fun c => negb (is_atomic_value_char c)) cs = true ->
           feed_chars_catching cs p = (p, map (fun _ => Raise e) cs)).
Proof.
  intros Hst. split.
  - intros Hsegs cs. induction cs as [|c cs IH]; [reflexivity|].
    cbn [feed_chars_catching map].
    assert (H : feed_char c p = (p, Raise e)).
    { rewrite feed_char_in_state, Hst. unfold feed_char_atomic_value.
      run_m. now rewrite Hsegs. }
    now rewrite H, IH.
  - intros segs Hsegs Hj cs. induction cs as [|c cs IH]; [reflexivity|].
    cbn [feed_chars_catching map forallb]. intros Hcs.
    apply andb_prop in Hcs as [Hc Hcs].
    assert (H : feed_char c p = (p, Raise e)).
    { rewrite feed_char_in_state, Hst. unfold feed_char_atomic_value.
      run_m. now rewrite Hsegs, Hc, Hj. }
    now rewrite H, IH.
Qed.

Lemma X10_failed_atomic_value_is_stuck_witness :
  (let p := fst (feed_string (lit "[[1") __init__) in
   feed_chars_catching (lit "2]]") p
   = (p, [Raise AssertionError; Raise AssertionError; Raise AssertionError]))
  /\ (let p := fst (feed_string (lit "{'a':01") __init__) in
      feed_chars_catching (lit ",}") p
      = (p, [Raise JSONDecodeError; Raise JSONDecodeError])).
Proof.
  split; cbv zeta.
  - apply (proj1 (X10_failed_atomic_value_is_stuck
                    (fst (feed_string (lit "[[1") __init__))
                    AssertionError eq_refl)).
    reflexivity.
  - apply (proj2 (X10_failed_atomic_value_is_stuck
                    (fst (feed_string (lit "{'a':01") __init__))
                    JSONDecodeError eq_refl) [lit "a"]); reflexivity.
Defined.

(** ** Pulling events *)

(** X11: the queue is first in, first out.  [__next__] on an empty
    queue raises [StopIteration] and changes nothing; otherwise it
    returns the oldest event and removes only that one; and pulling
    until [StopIteration] after feeding a text returns, in order, the
    events that were queued before followed by the events the text
    produced. *)
Theorem X11_queue_is_fifo p s :
  (toyield p = [] -> __next__ p = (p, Raise StopIteration))
  /\ (forall e q, toyield p = e :: q ->
                  __next__ p = (with_toyield q p, Return e))
  /\ (let (p1, r) := feed_string s (with_toyield [] p) in
      snd (drain_all (fst (feed_string s p))) = toyield p ++ toyield p1
      /\ toyield (fst (drain_all (fst (feed_string s p)))) = []).
Proof.
  split; [|split].
  - intros H. unfold __next__. run_m. now rewrite H.
  - intros e q H. unfold __next__. run_m. now rewrite H.
  - assert (H : feed_string s p
                 = let (p1, r) := feed_string s (with_toyield [] p) in
                   (queued (toyield p) p1, r)).
    { rewrite <- feed_string_queued. f_equal.
      destruct p; unfold queued; simp_rec; now rewrite app_nil_r. }
    rewrite H. destruct (feed_string s (with_toyield [] p)) as [p1 r].
    rewrite drain_all_spec. unfold queued. simp_rec. auto.
Qed.

(** ** Paths *)

Lemma index_key_segments_objects ks tail r :
  index_key_segments tail = Return r ->
  index_key_segments
    (flat_map (fun k => [PyStr [ch "{"]; PyStr k]) ks ++ tail)
  = Return (map key_repr ks ++ r).
Proof.
  intros Ht. induction ks as [|k ks IH]; [exact Ht|].
  cbn [flat_map app map]. cbn [index_key_segments].
  change (py_eq_str (PyStr [ch "{"]) [ch "["]) with false.
  change (py_eq_str (PyStr [ch "{"]) [ch "{"]) with true. cbv iota.
  now rewrite IH.
Qed.

(** X12: the path of a value nested in objects.  When the stack holds,
    from the bottom, an object marker and a key for each of the keys
    [ks], [calculate_current_index_key] returns their segments joined by
    dots and leaves the parser untouched; when an array marker and its
    index follow on top, the index comes last in the path. *)
Theorem X12_path_of_nested_objects p ks :
  (stack p = flat_map (fun k => [PyStr [ch "{"]; PyStr k]) ks ->
   calculate_current_index_key p = (p, Return (join_dot (map key_repr ks))))
  /\ (forall z,
         stack p = flat_map (fun k => [PyStr [ch "{"]; PyStr k]) ks
                   ++ [PyStr [ch "["]; PyInt z] ->
         calculate_current_index_key p
         = (p, Return (join_dot (map key_repr ks ++ [str_of_int z])))).
Proof.
  unfold calculate_current_index_key. run_m. split.
  - intros ->.
    rewrite <- (app_nil_r (flat_map _ ks)).
    rewrite (index_key_segments_objects ks [] []); [|reflexivity].
    now rewrite app_nil_r.
  - intros z ->.
    now rewrite (index_key_segments_objects ks _ [str_of_int z]).
Qed.

Lemma X12_path_of_nested_objects_witness :
  calculate_current_index_key
    (fst (feed_string (lit "{'a':{'$x':{'d':[7") __init__))
  = (fst (feed_string (lit "{'a':{'$x':{'d':[7") __init__),
     Return (lit "a.'$x'.d.0")).
Proof.
  apply (proj2 (X12_path_of_nested_objects
                  (fst (feed_string (lit "{'a':{'$x':{'d':[7") __init__))
                  [lit "a"; lit "$x"; lit "d"]) 0%Z).
  reflexivity.
Defined.

(** ** Invariants of a caller's parser *)

Lemma decoder_outside c p :
  state p = OUTSIDE -> payload_string_parser p = None ->
  decoder_only_in_string (fst (feed_char_outside c p)).
Proof.
  destruct p as [st sk ty pl psp sd]. unfold decoder_only_in_string.
  simp_rec. intros -> ->.
  unfold feed_char_outside, _handle_brackets, _handle_inside_object_value,
    assert.
  crush_m; congruence.
Qed.

Lemma decoder_feed_char c p :
  decoder_only_in_string p -> decoder_only_in_string (fst (feed_char c p)).
Proof.
  intros H. rewrite feed_char_in_state.
  destruct p as [st sk ty pl psp sd]. unfold decoder_only_in_string in H.
  simp_rec. destruct st.
  - apply decoder_outside; [reflexivity|]. apply H. discriminate.
  - assert (Hp : psp = None) by (apply H; discriminate). subst psp.
    unfold feed_char_key, assert, decoder_only_in_string.
    crush_m; congruence.
  - assert (Hp : psp = None) by (apply H; discriminate). subst psp.
    unfold feed_char_atomic_value.
    crush_m; try (unfold decoder_only_in_string; simp_rec; congruence).
    rewrite feed_char_in_state. simp_rec. now apply decoder_outside.
  - unfold feed_char_string_value, StreamJsonStringParser.feed_char,
      decoder_only_in_string.
    destruct psp; crush_m; congruence.
  - assumption.
Qed.

Lemma json_loads_quoted_raise rest e :
  json_loads (DQUOTE :: rest) = Raise e -> e = JSONDecodeError.
Proof.
  unfold json_loads. change (skip_ws (DQUOTE :: rest)) with (DQUOTE :: rest).
  change (DQUOTE =? DQUOTE) with true. cbv iota.
  destruct (scanstring rest) as [[s r]|]; [apply json_finish_raise|].
  intros [= <-]. reflexivity.
Qed.

(** X13: what holds of every parser a caller can hold, whatever was fed
    and whichever calls raised.  Between tokens the payload is empty;
    inside a key or a string value it starts with the double quote, and
    inside an atomic value with an atomic-value character, and in these
    three states the stack is not empty; every integer on the stack is
    0; and outside a string value there is no decoder object. *)
Theorem X13_reachable_invariants p :
  reachable p ->
  shape p
  /\ (forall z, In (PyInt z) (stack p) -> z = 0%Z)
  /\ decoder_only_in_string p.
Proof.
  intros Hr. split; [now apply reachable_shape|].
  split; [now apply reachable_indices_zero|].
  induction Hr.
  - intros _. reflexivity.
  - now apply decoder_feed_char.
  - destruct p as [st sk ty pl psp sd]. unfold __next__.
    unfold decoder_only_in_string in *. crush_m; assumption.
Qed.

Lemma X13_reachable_invariants_witness :
  let p := fst (feed_string (lit "{'a':['x','y") __init__) in
  shape p
  /\ (forall z, In (PyInt z) (stack p) -> z = 0%Z)
  /\ decoder_only_in_string p.
Proof.
  apply X13_reachable_invariants.
  apply reachable_feed_string, reach_init.
Defined.

(** X14: the assertion of [feed_char_key] never fails for a caller.  On
    a parser a caller can hold that is inside a key, [feed_char] either
    returns, the parser then being inside the key still or between
    tokens, or raises the decode error of [json.loads] and changes
    nothing. *)
Theorem X14_key_state_outcomes c p :
  reachable p -> state p = KEY ->
  (snd (feed_char c p) = Return tt
   /\ (state (fst (feed_char c p)) = KEY
       \/ state (fst (feed_char c p)) = OUTSIDE))
  \/ feed_char c p = (p, Raise JSONDecodeError).
Proof.
  intros Hr Hst. apply reachable_shape in Hr. unfold shape in Hr.
  rewrite Hst in Hr. destruct Hr as [[rest Hpl] _].
  rewrite feed_char_in_state, Hst.
  destruct p as [st sk ty pl psp sd]. simp_rec. subst st pl.
  unfold feed_char_key. run_m. simp_rec.
  change (DQUOTE =? DQUOTE) with true. cbv iota.
  crush_m; auto.
  match goal with
  | H : json_loads _ = Raise _ |- _ => apply json_loads_quoted_raise in H
  end.
  subst. auto.
Qed.

Lemma X14_key_state_outcomes_witness :
  let p := fst (feed_string (lit "{'a\b") __init__) in
  (snd (feed_char DQUOTE p) = Return tt
   /\ (state (fst (feed_char DQUOTE p)) = KEY
       \/ state (fst (feed_char DQUOTE p)) = OUTSIDE))
  \/ feed_char DQUOTE p = (p, Raise JSONDecodeError).
Proof.
  apply X14_key_state_outcomes.
  - apply reachable_feed_string, reach_init.
  - reflexivity.
Defined.

(** ** String values, token by token *)

Lemma escaped_cases e :
  str_in e [ch "n"; ch "t"; ch "r"; BACKSLASH; DQUOTE; ch "/"] = true ->
  e = ch "n" \/ e = ch "t" \/ e = ch "r" \/ e = BACKSLASH \/ e = DQUOTE
  \/ e = ch "/".
Proof.
  intros H. apply str_in_In in H. cbn [In] in H. intuition auto.
Qed.

Lemma scanstring_tokens ks rest :
  forallb token_ok ks = true ->
  scanstring (flat_map token_text ks ++ DQUOTE :: rest)
  = Some (map token_char ks, rest).
Proof.
  induction ks as [|k ks IH]; intros Hok.
  - reflexivity.
  - cbn [forallb] in Hok. apply andb_prop in Hok. destruct Hok as [Hk Hks].
    specialize (IH Hks). cbn [flat_map map]. rewrite <- app_assoc.
    destruct k as [c|e|h1 h2 h3 h4]; cbn [token_ok token_text token_char] in *.
    + apply andb_prop in Hk. destruct Hk as [Hk H32].
      apply andb_prop in Hk. destruct Hk as [Hq Hb].
      apply negb_true_iff in Hq, Hb, H32.
      cbn [app scanstring]. rewrite Hq, Hb, H32, IH. reflexivity.
    + apply escaped_cases in Hk.
      destruct Hk as [-> | [-> | [-> | [-> | [-> | ->]]]]];
        cbn [app scanstring];
        repeat match goal with
               | |- context [(?a =? ?b)%N] =>
                   let v := eval vm_compute in (a =? b)%N in
                   change (a =? b)%N with v
               end; cbv iota;
        unfold json_backslash;
        repeat match goal with
               | |- context [(?a =? ?b)%N] =>
                   let v := eval vm_compute in (a =? b)%N in
                   change (a =? b)%N with v
               end; cbv iota;
        rewrite IH; reflexivity.
    + apply andb_prop in Hk. destruct Hk as [Hh Hs].
      apply negb_true_iff in Hs.
      cbn [app]. cbn [scanstring].
      change (BACKSLASH =? DQUOTE) with false.
      change (BACKSLASH =? BACKSLASH) with true.
      change (ch "u" =? ch "u") with true. cbv iota.
      rewrite Hh, Hs, IH. reflexivity.
Qed.

Lemma json_loads_tokens ks :
  forallb token_ok ks = true ->
  json_loads (DQUOTE :: flat_map token_text ks ++ [DQUOTE])
  = Return (PyStr (map token_char ks)).
Proof.
  intros Hok. unfold json_loads.
  change (skip_ws (DQUOTE :: ?s)) with (DQUOTE :: s).
  change (DQUOTE =? DQUOTE) with true. cbv iota.
  now rewrite scanstring_tokens.
Qed.






(** ** Keys *)

Lemma lstrip_length chars s : (length (lstrip chars s) <= length s)%nat.
Proof.
  induction s as [|c s IH]; cbn [lstrip length]; [lia|].
  destruct (str_in c chars); cbn [length]; lia.
Qed.

Lemma trailing_backslashes_snoc s c :
  trailing_backslashes (s ++ [c])
  = if c =? BACKSLASH then S (trailing_backslashes s) else 0%nat.
Proof.
  unfold trailing_backslashes, rstrip.
  rewrite rev_app_distr. cbn [rev app lstrip str_in existsb].
  rewrite orb_false_r.
  pose proof (lstrip_length [BACKSLASH] (rev s)) as Hl.
  rewrite length_rev in Hl.
  destruct (c =? BACKSLASH); rewrite !length_rev, length_app;
    cbn [length]; rewrite ?length_rev; lia.
Qed.

Lemma mod2_even n : (n mod 2 =? 0)%nat = Nat.even n.
Proof.
  pose proof (Nat.div_mod_eq n 2) as H.
  pose proof (Nat.mod_upper_bound n 2 ltac:(lia)) as Hlt.
  rewrite H at 2. rewrite Nat.add_comm, Nat.even_add_mul_2.
  destruct (n mod 2)%nat as [|[|m]]; [reflexivity|reflexivity|lia].
Qed.

Lemma is_hex_not_special h :
  is_hex h = true -> (h =? DQUOTE) = false /\ (h =? BACKSLASH) = false.
Proof.
  unfold is_hex, is_digit, DQUOTE, BACKSLASH. intros H.
  split; apply N.eqb_neq; intros ->; vm_compute in H; discriminate.
Qed.

(** One character inside a key. *)
Lemma key_step c sk ty pl psp sd :
  feed_char c (mk KEY sk ty (DQUOTE :: pl) psp sd) =
  if (c =? DQUOTE) && Nat.even (trailing_backslashes (DQUOTE :: pl)) then
    match json_loads (DQUOTE :: pl ++ [c]) with
    | Return key => (mk OUTSIDE (sk ++ [key]) ty [] psp sd, Return tt)
    | Raise e => (mk KEY sk ty (DQUOTE :: pl) psp sd, Raise e)
    end
  else (mk KEY sk ty (DQUOTE :: pl ++ [c]) psp sd, Return tt).
Proof.
  rewrite feed_char_in_state. cbn [state].
  unfold feed_char_key. run_m. simp_rec.
  change (DQUOTE =? DQUOTE) with true. cbv iota.
  rewrite mod2_even. fold (trailing_backslashes (DQUOTE :: pl)).
  destruct ((c =? DQUOTE) && _); [|reflexivity].
  cbn [app]. destruct (json_loads _); reflexivity.
Qed.

Lemma key_plain_step c sk ty pl psp sd :
  (c =? DQUOTE) = false ->
  feed_char c (mk KEY sk ty (DQUOTE :: pl) psp sd)
  = (mk KEY sk ty (DQUOTE :: pl ++ [c]) psp sd, Return tt).
Proof. intros H. rewrite key_step, H. reflexivity. Qed.

Lemma key_token k sk ty pl psp sd :
  Nat.even (trailing_backslashes (DQUOTE :: pl)) = true ->
  token_ok k = true ->
  feed_string (token_text k) (mk KEY sk ty (DQUOTE :: pl) psp sd)
  = (mk KEY sk ty (DQUOTE :: pl ++ token_text k) psp sd, Return tt)
  /\ Nat.even (trailing_backslashes (DQUOTE :: pl ++ token_text k)) = true.
Proof.
  intros Hev Hk.
  destruct k as [c|e|h1 h2 h3 h4]; cbn [token_ok token_text] in *.
  - apply andb_prop in Hk. destruct Hk as [Hk _].
    apply andb_prop in Hk. destruct Hk as [Hq Hb].
    apply negb_true_iff in Hq, Hb.
    cbn [feed_string]. unfold bind. rewrite key_plain_step by assumption.
    split; [reflexivity|].
    change (DQUOTE :: pl ++ [c]) with ((DQUOTE :: pl) ++ [c]).
    rewrite trailing_backslashes_snoc, Hb. reflexivity.
  - cbn [feed_string]. unfold bind.
    rewrite key_plain_step by reflexivity.
    rewrite key_step.
    match goal with
    | |- context [Nat.even ?x] => assert (Hodd : Nat.even x = false)
    end.
    { change (DQUOTE :: pl ++ [BACKSLASH])
        with ((DQUOTE :: pl) ++ [BACKSLASH]).
      rewrite trailing_backslashes_snoc.
      change (BACKSLASH =? BACKSLASH) with true. cbv iota.
      rewrite Nat.even_succ, <- Nat.negb_even, Hev. reflexivity. }
    rewrite Hodd, andb_false_r. rewrite <- app_assoc. cbn [app].
    split; [reflexivity|].
    change (DQUOTE :: pl ++ [BACKSLASH; e])
      with ((DQUOTE :: pl) ++ [BACKSLASH; e]).
    change [BACKSLASH; e] with ([BACKSLASH] ++ [e]). rewrite app_assoc.
    rewrite trailing_backslashes_snoc.
    destruct (e =? BACKSLASH); [|reflexivity].
    rewrite trailing_backslashes_snoc.
    change (BACKSLASH =? BACKSLASH) with true. cbv iota.
    cbn [Nat.even]. exact Hev.
  - apply andb_prop in Hk. destruct Hk as [Hh _].
    cbn [forallb] in Hh.
    apply andb_prop in Hh. destruct Hh as [H1 Hh].
    apply andb_prop in Hh. destruct Hh as [H2 Hh].
    apply andb_prop in Hh. destruct Hh as [H3 Hh].
    apply andb_prop in Hh. destruct Hh as [H4 _].
    apply is_hex_not_special in H1, H2, H3, H4.
    destruct H1 as [H1 _], H2 as [H2 _], H3 as [H3 _], H4 as [H4 H4b].
    cbn [feed_string]. unfold bind.
    rewrite key_plain_step by reflexivity.
    rewrite key_plain_step by reflexivity.
    rewrite !key_plain_step by assumption.
    repeat rewrite <- app_assoc. cbn [app].
    split; [reflexivity|].
    change (DQUOTE :: pl ++ [BACKSLASH; ch "u"; h1; h2; h3; h4])
      with ((DQUOTE :: pl) ++ [BACKSLASH; ch "u"; h1; h2; h3] ++ [h4]).
    rewrite app_assoc, trailing_backslashes_snoc, H4b. reflexivity.
Qed.

Lemma key_tokens ks : forall sk ty pl psp sd w,
  Nat.even (trailing_backslashes (DQUOTE :: pl)) = true ->
  forallb token_ok ks = true ->
  json_loads (DQUOTE :: pl ++ flat_map token_text ks ++ [DQUOTE]) = Return w ->
  feed_string (flat_map token_text ks ++ [DQUOTE])
    (mk KEY sk ty (DQUOTE :: pl) psp sd)
  = (mk OUTSIDE (sk ++ [w]) ty [] psp sd, Return tt).
Proof.
  induction ks as [|k ks IH]; intros sk ty pl psp sd w Hev Hok Hw.
  - cbn [flat_map app feed_string] in *. unfold bind.
    rewrite key_step, Hev. change (DQUOTE =? DQUOTE) with true.
    cbn [andb]. rewrite Hw. reflexivity.
  - cbn [forallb] in Hok. apply andb_prop in Hok. destruct Hok as [Hk Hks].
    cbn [flat_map]. rewrite <- app_assoc, <- feed_string_app.
    unfold bind at 1.
    destruct (key_token k sk ty pl psp sd Hev Hk) as [-> Hev'].
    apply IH; auto.
    rewrite <- Hw. cbn [flat_map]. now rewrite <- !app_assoc.
Qed.

(** X16: a key is decoded as JSON text.  With the opening quote of a
    key just read, feeding the text of the key and the closing quote
    pushes the decoded key on the stack and leaves the parser between
    tokens; nothing is queued.  The text is made of plain characters,
    of a backslash followed by one of [n], [t], [r], the backslash, the
    quote and the slash, and of [\u] escapes that are no high
    surrogate; a quote after a backslash ends the key only when the
    backslash is itself escaped. *)
Theorem X16_key_decoding ks p :
  state p = KEY ->
  payload p = [DQUOTE] ->
  forallb token_ok ks = true ->
  feed_string (flat_map token_text ks ++ [DQUOTE]) p
  = (mk OUTSIDE (stack p ++ [PyStr (map token_char ks)]) (toyield p) []
        (payload_string_parser p) (started p),
     Return tt).
Proof.
  destruct p as [st sk ty pl psp sd]. simp_rec.
  intros -> -> Hok.
  apply (key_tokens ks sk ty [] psp sd); auto.
  cbn [app]. now apply json_loads_tokens.
Qed.

Lemma X16_key_decoding_witness :
  feed_string (lit "a\'b\\'")
    (fst (feed_string (lit "{'") __init__))
  = (mk OUTSIDE
        [PyStr [ch "{"]; PyStr [ch "a"; DQUOTE; ch "b"; BACKSLASH]]
        [] [] None true,
     Return tt).
Proof.
  pose proof (X16_key_decoding
           [Plain (ch "a"); Escaped DQUOTE; Plain (ch "b");
            Escaped BACKSLASH]
           (fst (feed_string (lit "{'") __init__))
           eq_refl eq_refl eq_refl) as H.
  exact H.
Defined.

(** ** A key that is the text of a bracket *)

Lemma stack_top_app sk v : stack_top (sk ++ [v]) = v.
Proof. unfold stack_top. now rewrite list_pop_app. Qed.

Lemma stack_m2_app sk a b : stack_m2 (sk ++ [a; b]) = a.
Proof.
  unfold stack_m2. rewrite length_app. cbn [length].
  replace (length sk + 2 - 2)%nat with (length sk) by lia.
  rewrite app_nth2 by lia. now rewrite Nat.sub_diag.
Qed.

Lemma pystr_eqb_eq a b : pystr_eqb a b = true <-> a = b.
Proof.
  revert b. induction a as [|x a IH]; intros [|y b]; cbn [pystr_eqb];
    try (split; [discriminate|discriminate]); [tauto|].
  rewrite andb_true_iff, N.eqb_eq, IH. split.
  - intros [-> ->]. reflexivity.
  - intros [= -> ->]. auto.
Qed.

(** X17: the stack holds keys and bracket markers alike as text, and
    [feed_char_outside] tells them apart by value only, so the key [{]
    is taken for the marker of an object.  Inside an object, the member
    with this key and a string value queues no event at all: the
    string is pushed as one more key; and the brace that closes the
    object then fails with [RuntimeError], unless the string is itself
    the text of the brace. *)
Theorem X17_brace_key_taken_for_marker ks p sk :
  state p = OUTSIDE -> payload p = [] ->
  stack p = sk ++ [PyStr [ch "{"]] ->
  forallb token_ok ks = true ->
  let key := PyStr [ch "{"] in
  let text := PyStr (map token_char ks) in
  let p1 := mk OUTSIDE (sk ++ [PyStr [ch "{"]; key; text]) (toyield p) []
               (payload_string_parser p) true in
  feed_string (lit "'{':'" ++ flat_map token_text ks ++ [DQUOTE]) p
  = (p1, Return tt)
  /\ (map token_char ks <> [ch "{"] ->
      feed_char (ch "}") p1
      = (with_state INVALID (with_stack (sk ++ [PyStr [ch "{"]; key]) p1),
         Raise (RuntimeError (BracketMismatch text [ch "{"])))).
Proof.
  destruct p as [st sk0 ty pl psp sd]. simp_rec.
  intros -> -> -> Hok. cbv zeta. split.
  - change (lit "'{':'") with ([DQUOTE] ++ [ch "{"; DQUOTE] ++ [ch ":"; DQUOTE]).
    rewrite <- !app_assoc. rewrite <- feed_string_app.
    unfold bind at 1.
    assert (H1 : feed_string [DQUOTE]
                   (mk OUTSIDE (sk ++ [PyStr [ch "{"]]) ty [] psp sd)
                 = (mk KEY (sk ++ [PyStr [ch "{"]]) ty [DQUOTE] psp true,
                    Return tt)).
    { cbn [feed_string]. unfold bind. rewrite feed_char_in_state.
      cbn [state]. unfold feed_char_outside. run_m. simp_rec.
      rewrite stack_top_app. reflexivity. }
    rewrite H1. rewrite <- feed_string_app. unfold bind at 1.
    rewrite (key_tokens [Plain (ch "{")] _ _ [] _ _ (PyStr [ch "{"])
               eq_refl eq_refl eq_refl).
    rewrite <- feed_string_app. unfold bind at 1.
    assert (H2 : feed_string [ch ":"; DQUOTE]
                   (mk OUTSIDE ((sk ++ [PyStr [ch "{"]]) ++ [PyStr [ch "{"]])
                       ty [] psp true)
                 = (mk KEY (sk ++ [PyStr [ch "{"]; PyStr [ch "{"]]) ty
                       [DQUOTE] psp true,
                    Return tt)).
    { rewrite <- app_assoc. cbn [app feed_string]. unfold bind.
      rewrite feed_char_in_state. cbn [state].
      unfold feed_char_outside at 1. run_m. simp_rec.
      rewrite stack_m2_app.
      replace (stack_top (sk ++ [PyStr [ch "{"]; PyStr [ch "{"]]))
        with (PyStr [ch "{"])
        by (change [PyStr [ch "{"]; PyStr [ch "{"]]
              with ([PyStr [ch "{"]] ++ [PyStr [ch "{"]]);
            now rewrite app_assoc, stack_top_app).
      rewrite length_app. cbn [length].
      replace (2 <=? length sk + 2)%nat with true
        by (symmetry; apply Nat.leb_le; lia).
      change (str_in (ch ":") [ch "{"; ch "}"; ch "["; ch "]"]) with false.
      change (is_whitespace (ch ":")) with false.
      change (ch ":" =? ch ",") with false.
      change (ch ":" =? ch ":") with true.
      cbn [andb py_eq_str pystr_eqb isinstance_str]. cbv iota.
      change (ch "{" =? ch "{") with true. cbn [andb]. cbv iota.
      rewrite feed_char_in_state. cbn [state].
      unfold feed_char_outside. run_m. simp_rec.
      replace (stack_top (sk ++ [PyStr [ch "{"]; PyStr [ch "{"]]))
        with (PyStr [ch "{"])
        by (change [PyStr [ch "{"]; PyStr [ch "{"]]
              with ([PyStr [ch "{"]] ++ [PyStr [ch "{"]]);
            now rewrite app_assoc, stack_top_app).
      reflexivity. }
    rewrite H2.
    rewrite (key_tokens ks _ _ [] _ _ (PyStr (map token_char ks)) eq_refl Hok)
      by (cbn [app]; now apply json_loads_tokens).
    rewrite <- app_assoc. reflexivity.
  - intros Hne. rewrite feed_char_in_state. cbn [state].
    unfold feed_char_outside, _handle_brackets. run_m. simp_rec.
    change (str_in (ch "}") [ch "{"; ch "}"; ch "["; ch "]"]) with true.
    change (str_in (ch "}") [ch "{"; ch "["]) with false.
    change (str_in (ch "}") [ch "}"; ch "]"]) with true.
    cbv beta iota. simp_rec.
    change (sk ++ [PyStr [ch "{"]; PyStr [ch "{"]; PyStr (map token_char ks)])
      with (sk ++ [PyStr [ch "{"]; PyStr [ch "{"]]
               ++ [PyStr (map token_char ks)]).
    rewrite app_assoc, match_app_unit. simp_rec.
    rewrite list_pop_app. simp_rec.
    change (PAIRS (ch "}")) with (Some [ch "{"]). cbv iota.
    cbn [py_eq_str].
    destruct (pystr_eqb (map token_char ks) [ch "{"]) eqn:E.
    + apply pystr_eqb_eq in E. contradiction.
    + reflexivity.
Qed.

Lemma X17_brace_key_taken_for_marker_witness :
  feed_string (lit "{'{':'x'") __init__
  = (mk OUTSIDE [PyStr (lit "{"); PyStr (lit "{"); PyStr (lit "x")]
        [] [] None true, Return tt)
  /\ feed_char (ch "}")
       (mk OUTSIDE [PyStr (lit "{"); PyStr (lit "{"); PyStr (lit "x")]
           [] [] None true)
     = (mk INVALID [PyStr (lit "{"); PyStr (lit "{")] [] [] None true,
        Raise (RuntimeError (BracketMismatch (PyStr (lit "x")) (lit "{")))).
Proof.
  pose proof (X17_brace_key_taken_for_marker
                [Plain (ch "x")] (fst (feed_string (lit "{") __init__)) []
                eq_refl eq_refl eq_refl eq_refl) as H.
  cbv zeta in H. destruct H as [H1 H2].
  specialize (H2 ltac:(discriminate)).
  split; [exact H1 | exact H2].
Defined.

(** ** The exceptions of [feed_char] *)

Lemma index_key_segments_no_index_error sk v :
  is_marker v = false ->
  index_key_segments (sk ++ [v]) <> Raise IndexError.
Proof.
  intros Hv. remember (length sk) as n eqn:Hn.
  revert sk Hn. induction n as [n IH] using lt_wf_ind. intros sk ->.
  unfold is_marker in Hv. apply orb_false_elim in Hv. destruct Hv as [Hb Hk].
  destruct sk as [|m [|k sk]]; cbn [app index_key_segments].
  - rewrite Hk, Hb. discriminate.
  - rewrite Hk, Hb.
    destruct (py_eq_str m [ch "["]); [destruct v; discriminate|].
    destruct (py_eq_str m [ch "{"]); [destruct v; discriminate|].
    discriminate.
  - assert (IH1 := IH (length sk) ltac:(cbn; lia) sk eq_refl).
    assert (IH2 := IH (length (k :: sk)) ltac:(cbn; lia) (k :: sk) eq_refl).
    cbn [app] in IH2.
    destruct (py_eq_str m [ch "["]).
    { destruct k; try discriminate;
        destruct (index_key_segments (sk ++ [v])) as [r|e];
        try discriminate; congruence. }
    destruct (py_eq_str m [ch "{"]).
    { destruct k; try discriminate;
        destruct (index_key_segments (sk ++ [v])) as [r|e];
        try discriminate; congruence. }
    exact IH2.
Qed.

Lemma string_slot_outside c p :
  state p = OUTSIDE -> string_slot (fst (feed_char_outside c p)).
Proof.
  destruct p as [st sk ty pl psp sd]. unfold string_slot, is_marker.
  simp_rec. intros ->.
  unfold feed_char_outside, _handle_brackets, _handle_inside_object_value,
    assert.
  crush_m; try discriminate; intros _.
  - eexists _, _. split; reflexivity.
  - bool_hyps.
    assert (Hne : sk <> []) by eauto.
    destruct (list_pop sk) as [[rest v]|] eqn:Hp;
      [|now apply list_pop_nil in Hp].
    apply list_pop_some in Hp. subst sk. exists rest, v. split; auto.
    unfold stack_top in *. rewrite list_pop_app in *.
    match goal with
    | H : py_eq_str v [ch "["] = false |- _ => rewrite H
    end.
    match goal with
    | H : py_eq_str v [ch "{"] && _ = false |- _ =>
        rewrite andb_true_r in H; rewrite H
    end.
    reflexivity.
Qed.

Lemma string_slot_feed_char c p :
  string_slot p -> string_slot (fst (feed_char c p)).
Proof.
  intros H. rewrite feed_char_in_state.
  destruct (state p) eqn:Hst.
  - now apply string_slot_outside.
  - destruct p as [st sk ty pl psp sd]. unfold string_slot. simp_rec.
    subst st. unfold feed_char_key, assert. crush_m; discriminate.
  - destruct p as [st sk ty pl psp sd]. simp_rec. subst st.
    unfold feed_char_atomic_value.
    crush_m; try (unfold string_slot; simp_rec; discriminate).
    rewrite feed_char_in_state. simp_rec. now apply string_slot_outside.
  - specialize (H Hst).
    destruct p as [st sk ty pl psp sd]. unfold string_slot. simp_rec.
    unfold feed_char_string_value, StreamJsonStringParser.feed_char.
    destruct psp; crush_m; try discriminate; intros _; assumption.
  - unfold string_slot. cbn [fst]. congruence.
Qed.

Lemma reachable_string_slot p : reachable p -> string_slot p.
Proof.
  induction 1.
  - unfold string_slot. discriminate.
  - now apply string_slot_feed_char.
  - destruct p as [st sk ty pl psp sd]. unfold __next__, string_slot in *.
    crush_m; assumption.
Qed.

Lemma outside_may_raise c p e :
  snd (feed_char_outside c p) = Raise e -> may_raise OUTSIDE e = true.
Proof.
  destruct p as [st sk ty pl psp sd].
  unfold feed_char_outside, _handle_brackets, _handle_inside_object_value,
    assert.
  crush_m; intros; raise_cases; reflexivity.
Qed.

(** X18: the exceptions of [feed_char], state by state, on every parser
    a caller can hold.  Between tokens it raises [RuntimeError] or
    fails an assertion; inside a key it raises only the decode error of
    [json.loads]; inside a string value it fails an assertion of the
    path computation or raises the decode error of the codec or of
    [json.loads]; inside an atomic value it fails in the path
    computation, by assertion or [IndexError], or in [json.loads], by
    decode error or [ValueError], or as between tokens on the character
    fed again; after a failure it raises [RuntimeError].  It never
    raises [KeyError] or [AttributeError]. *)
Theorem X18_exceptions_by_state c p e :
  reachable p -> snd (feed_char c p) = Raise e ->
  may_raise (state p) e = true.
Proof.
  intros Hr. pose proof (reachable_shape p Hr) as Hsh.
  pose proof (reachable_string_slot p Hr) as Hslot.
  rewrite feed_char_in_state. unfold shape in Hsh.
  destruct (state p) eqn:Hst.
  - apply outside_may_raise.
  - destruct Hsh as [[rest Hpl] _].
    destruct p as [st sk ty pl psp sd]. simp_rec. subst st pl.
    unfold feed_char_key. run_m. simp_rec.
    change (DQUOTE =? DQUOTE) with true. cbv iota. cbn [app].
    crush_m; intros;
      try match goal with
          | H : json_loads (DQUOTE :: _) = Raise _ |- _ =>
              apply json_loads_quoted_raise in H; subst
          end;
      raise_cases; reflexivity.
  - destruct Hsh as [(c0 & rest & Hpl & Hc0) Hne].
    destruct p as [st sk ty pl psp sd]. simp_rec. subst st pl.
    unfold feed_char_atomic_value.
    crush_m; intros; raise_cases; try reflexivity.
    match goal with
    | H : snd (feed_char _ _) = Raise _ |- _ =>
        rewrite feed_char_in_state in H; simp_rec;
        apply outside_may_raise in H
    end.
    destruct e; try discriminate; reflexivity.
  - destruct Hsh as [[rest Hpl] Hne].
    destruct (Hslot Hst) as (sk0 & v & Hsk & Hv).
    rewrite feed_char_string_value_eq. cbv zeta.
    destruct (index_key_segments (stack p)) as [segs|e0] eqn:Hsegs.
    + destruct (StreamJsonStringParser.get_escaped_char _)
        as [sp2 [[s|[|]]|e1]] eqn:Hg; cbn [snd]; try discriminate.
      * rewrite Hpl. cbn [app].
        destruct (json_loads _) as [w|e1] eqn:Hj; cbn [snd].
        -- rewrite Hsk, list_pop_app. discriminate.
        -- intros [= <-]. apply json_loads_quoted_raise in Hj. now subst.
      * intros [= <-]. apply get_escaped_char_raise_eq in Hg. now subst.
    + cbn [snd]. intros [= <-].
      pose proof (index_key_segments_no_index_error sk0 v Hv) as Hno.
      rewrite <- Hsk in Hno.
      destruct (index_key_segments_raise _ _ Hsegs) as [-> | ->];
        [contradiction | reflexivity].
  - cbn [snd]. intros [= <-]. reflexivity.
Qed.

Lemma X18_exceptions_by_state_witness :
  may_raise (state (fst (feed_string (lit "[['") __init__))) AssertionError
  = true.
Proof.
  apply (X18_exceptions_by_state (ch "x")).
  - apply reachable_feed_string, reach_init.
  - reflexivity.
Defined.

(** ** Numbers and separators *)



(** X20: separators are not checked.  Between tokens, directly inside
    a container (the top of the stack is a bracket marker), any run of
    blanks and commas is accepted and changes nothing but [started],
    which a comma sets: commas may be missing, repeated, leading or
    trailing. *)
Theorem X20_separators_not_checked s p :
  state p = OUTSIDE ->
  is_marker (stack_top (stack p)) = true ->
  forallb is_separator s = true ->
  feed_string s p
  = (with_started (started p || existsb (N.eqb (ch ",")) s) p, Return tt).
Proof.
  intros Hst Htop. revert p Hst Htop.
  induction s as [|c s IH]; intros p Hst Htop Hs.
  - cbn [feed_string existsb]. rewrite orb_false_r.
    destruct p; reflexivity.
  - cbn [forallb] in Hs. apply andb_prop in Hs. destruct Hs as [Hc Hs].
    cbn [feed_string existsb]. unfold bind.
    assert (Hstep : feed_char c p
                    = (with_started (started p || (ch "," =? c)) p,
                       Return tt)).
    { rewrite feed_char_in_state, Hst.
      destruct p as [st sk ty pl psp sd]. simp_rec.
      unfold is_separator in Hc. unfold is_marker in Htop.
      unfold feed_char_outside. run_m. simp_rec.
      destruct (is_whitespace c) eqn:Hw.
      - assert (Hb : str_in c [ch "{"; ch "}"; ch "["; ch "]"] = false).
        { apply str_in_In in Hw. cbn [In] in Hw.
          repeat destruct Hw as [<- | Hw]; try contradiction; reflexivity. }
        assert (Hcm : (ch "," =? c) = false).
        { apply str_in_In in Hw. cbn [In] in Hw.
          repeat destruct Hw as [<- | Hw]; try contradiction; reflexivity. }
        rewrite Hb, Hcm, orb_false_r. reflexivity.
      - cbn [orb] in Hc. apply N.eqb_eq in Hc. subst c.
        change (str_in (ch ",") [ch "{"; ch "}"; ch "["; ch "]"]) with false.
        change (ch "," =? ch ",") with true.
        cbv iota. simp_rec. rewrite Htop, orb_true_r. reflexivity. }
    rewrite Hstep. cbv iota.
    rewrite IH; [|destruct p; assumption..].
    destruct p as [st sk ty pl psp sd]. simp_rec.
    rewrite orb_assoc. reflexivity.
Qed.

Lemma X20_separators_not_checked_witness :
  feed_string (lit ",, ,") (fst (feed_string (lit "[") __init__))
  = (with_started true (fst (feed_string (lit "[") __init__)), Return tt).
Proof.
  apply (X20_separators_not_checked (lit ",, ,")
           (fst (feed_string (lit "[") __init__))); reflexivity.
Defined.
